(** * Lichess popularity analysis: aggregation, scoring, checkpointing
    and the download / process pipeline of
    [tools/analysis/analyze_lichess_popularity.py], and the enrichment
    report of [tools/analysis/check_enrichment_status.py], as a shallow
    embedding.

    Python [int] is [Z]; the running average, which the program keeps in
    a [float], is kept in exact rational arithmetic ([Q]); the decile
    index, whose value depends on binary64 rounding, is computed with
    the primitive binary64 floats. Dictionaries keyed by strings are
    [gmap string _], sets of strings are [gset string]. *)

From Stdlib Require Import ZArith QArith Qfield Floats Uint63 Lia.
From stdpp Require Import base option list gmap strings sorting pretty.

Local Open Scope Z_scope.

(** ** Exceptions and fallible results *)

Inductive exn : Type :=
  | ZeroDivisionError
  | IndexError
  | OverflowError
  | LibraryError (what : string).

Inductive result (A : Type) : Type :=
  | Ok (a : A)
  | Raise (e : exn).
Arguments Ok {A} a.
Arguments Raise {A} e.

(** ** Data model: [PopularityStats] (a Python dataclass) *)

Record PopularityStats : Type := mkStats {
  popularity_score : Z;
  frequency_count : Z;
  white_wins : Z;
  black_wins : Z;
  draws : Z;
  games_analyzed : Z;
  avg_rating : option Q;
  confidence_score : Q;
  analysis_date : string
}.

(** [PopularityStats()]: every field at its default. *)
Definition zero_stats : PopularityStats :=
  mkStats 0 0 0 0 0 0 None 0%Q "".

(** One update tuple [(fen, rating, game_result)]. *)
Record update : Type := mkUpdate {
  u_fen : string;
  u_rating : Q;
  u_result : string
}.

(** ** Statistics Aggregator: the locked section of [process_game] *)

(** The three result tokens and the bucket each one increments. *)
Definition bump_result (game_result : string) (s : PopularityStats) : PopularityStats :=
  if decide (game_result = "1-0") then
    mkStats (popularity_score s) (frequency_count s) (white_wins s + 1)
            (black_wins s) (draws s) (games_analyzed s) (avg_rating s)
            (confidence_score s) (analysis_date s)
  else if decide (game_result = "0-1") then
    mkStats (popularity_score s) (frequency_count s) (white_wins s)
            (black_wins s + 1) (draws s) (games_analyzed s) (avg_rating s)
            (confidence_score s) (analysis_date s)
  else if decide (game_result = "1/2-1/2") then
    mkStats (popularity_score s) (frequency_count s) (white_wins s)
            (black_wins s) (draws s + 1) (games_analyzed s) (avg_rating s)
            (confidence_score s) (analysis_date s)
  else s.

(** [stats.games_analyzed += 1; stats.frequency_count += 1]. *)
Definition bump_counts (s : PopularityStats) : PopularityStats :=
  mkStats (popularity_score s) (frequency_count s + 1) (white_wins s)
          (black_wins s) (draws s) (games_analyzed s + 1) (avg_rating s)
          (confidence_score s) (analysis_date s).

Definition set_avg_rating (a : Q) (s : PopularityStats) : PopularityStats :=
  mkStats (popularity_score s) (frequency_count s) (white_wins s)
          (black_wins s) (draws s) (games_analyzed s) (Some a)
          (confidence_score s) (analysis_date s).

(** The running average
    [((avg * (games_analyzed - 1)) + rating) / games_analyzed],
    evaluated after the count has been incremented. *)
Definition running_average (avg rating : Q) (n : Z) : Q :=
  ((avg * inject_Z (n - 1) + rating) / inject_Z n)%Q.

(** The body of the loop for one tuple, on the record of its key. The
    record is mutated in place, so when the division raises, the two
    counters stay incremented and the rest is skipped. *)
Definition update_record (rating : Q) (game_result : string)
    (s : PopularityStats) : PopularityStats * option exn :=
  let s1 := bump_counts s in
  match avg_rating s1 with
  | None => (bump_result game_result (set_avg_rating rating s1), None)
  | Some avg =>
      if games_analyzed s1 =? 0 then (s1, Some ZeroDivisionError)
      else (bump_result game_result
              (set_avg_rating (running_average avg rating (games_analyzed s1)) s1),
            None)
  end.

(** [for fen, rating, game_result in position_updates: if fen in self.stats: ...]
    An exception leaves the loop; what was written before it stays. *)
Fixpoint apply_updates (position_updates : list update)
    (stats : gmap string PopularityStats)
    : gmap string PopularityStats * option exn :=
  match position_updates with
  | [] => (stats, None)
  | u :: rest =>
      match stats !! u_fen u with
      | None => apply_updates rest stats
      | Some s =>
          match update_record (u_rating u) (u_result u) s with
          | (s', None) => apply_updates rest (<[u_fen u := s']> stats)
          | (s', Some e) => (<[u_fen u := s']> stats, Some e)
          end
      end
  end.

(** A sequence of batches, one per game, each applied under the lock;
    [process_game] swallows the exception of a batch, so the next batch
    is applied to whatever the previous one left. *)
Definition apply_batches (batches : list (list update))
    (stats : gmap string PopularityStats) : gmap string PopularityStats :=
  foldl (fun st b => fst (apply_updates b st)) stats batches.

(** ** Game Parser: [process_game] *)

(** What [chess.pgn.read_game] hands back, as far as [process_game]
    looks at it: the header mapping, and for every ply of the main line
    what reaching it gives, the FEN of the board before the move
    ([board.fen()]) or the exception the library raises there. *)
Record Game : Type := mkGame {
  headers : gmap string string;
  mainline : list (result string)
}.

(** [max_moves * 2], two plies per move. *)
Definition max_plies : nat := 70.

Section GameParser.
(** [chess.pgn.read_game(io.StringIO(game_text))]: a game, [None], or
    an exception. *)
Variable read_game : string -> result (option Game).
(** The builtin [int(value)] on a string; [None] stands for the
    [ValueError] it raises on text that is not a number. *)
Variable py_int : string -> option Z.
(** [self.target_fens]. *)
Variable target_fens : gset string.

Definition _safe_int (value : string) : Z :=
  match py_int value with
  | Some n => n
  | None => 0
  end.

(** [headers.get(key, dflt)]. *)
Definition headers_get (g : Game) (key dflt : string) : string :=
  match headers g !! key with
  | Some v => v
  | None => dflt
  end.

(** The loop over [game.mainline_moves()], [move_count] plies in. *)
Fixpoint collect_updates (avg_rating : Q) (game_result : string)
    (plies : list (result string)) (move_count : nat) : result (list update) :=
  match plies with
  | [] => Ok []
  | ply :: rest =>
      if (max_plies <=? move_count)%nat then Ok []
      else
        match ply with
        | Raise e => Raise e
        | Ok current_fen =>
            match collect_updates avg_rating game_result rest (S move_count) with
            | Raise e => Raise e
            | Ok ups =>
                if decide (current_fen ∈ target_fens)
                then Ok (mkUpdate current_fen avg_rating game_result :: ups)
                else Ok ups
            end
        end
  end.

(** The [try] block of [process_game]: the statistics it leaves and
    whether it ended normally. *)
Definition process_game_body (game_text : string)
    (stats : gmap string PopularityStats)
    : gmap string PopularityStats * result unit :=
  match read_game game_text with
  | Raise e => (stats, Raise e)
  | Ok None => (stats, Ok tt)
  | Ok (Some game) =>
      let white_elo := _safe_int (headers_get game "WhiteElo" "0") in
      let black_elo := _safe_int (headers_get game "BlackElo" "0") in
      let game_result := headers_get game "Result" "*" in
      if (white_elo =? 0) || (black_elo =? 0) then (stats, Ok tt)
      else
        let avg := (inject_Z (white_elo + black_elo) / 2)%Q in
        match collect_updates avg game_result (mainline game) 0 with
        | Raise e => (stats, Raise e)
        | Ok [] => (stats, Ok tt)
        | Ok position_updates =>
            match apply_updates position_updates stats with
            | (stats', None) => (stats', Ok tt)
            | (stats', Some e) => (stats', Raise e)
            end
        end
  end.

(** [try: ... except Exception: pass]. *)
Definition process_game (game_text : string)
    (stats : gmap string PopularityStats)
    : gmap string PopularityStats * result unit :=
  match process_game_body game_text stats with
  | (stats', Ok tt) => (stats', Ok tt)
  | (stats', Raise _) => (stats', Ok tt)
  end.

(** The games of one unit, in stream order. *)
Definition process_games (games : list string)
    (stats : gmap string PopularityStats) : gmap string PopularityStats :=
  foldl (fun st g => fst (process_game g st)) stats games.
End GameParser.

(** ** Popularity Scorer: [calculate_popularity_scores] *)

(** An [int] operand of a float operation, converted to binary64. The
    operands here are a decile number and a list length, which fit in a
    machine word. *)
Definition float_of_int (n : Z) : float :=
  PrimFloat.of_uint63 (Uint63.of_Z n).

(** [int(x)] on a float: truncation toward zero. A finite float is
    [m * 2 ^ e] with its sign; shifting [m] by [e] places (to the right
    for a negative [e]) drops the fraction. *)
Definition int_of_float (x : float) : result Z :=
  match Prim2SF x with
  | S754_zero _ => Ok 0
  | S754_finite sign m e =>
      let magnitude := Z.shiftl (Z.pos m) e in
      Ok (if sign then - magnitude else magnitude)
  | S754_infinity _ => Raise OverflowError
  | S754_nan => Raise (LibraryError "cannot convert float NaN to integer")
  end.

(** [index = int((i / 10) * n) - 1; if index < 0: index = 0]. *)
Definition decile_index (i n : Z) : result Z :=
  match int_of_float (float_of_int i / float_of_int 10 * float_of_int n)%float with
  | Raise e => Raise e
  | Ok k => let index := k - 1 in Ok (if index <? 0 then 0 else index)
  end.

(** [game_counts[index]] for an index that is not negative. *)
Definition list_index (l : list Z) (index : Z) : result Z :=
  match l !! Z.to_nat index with
  | Some x => Ok x
  | None => Raise IndexError
  end.

(** The loop [for i in range(1, 11)] that fills [percentile_thresholds]. *)
Fixpoint thresholds_for (deciles : list Z) (game_counts : list Z) : result (list Z) :=
  match deciles with
  | [] => Ok []
  | i :: rest =>
      match decile_index i (Z.of_nat (length game_counts)) with
      | Raise e => Raise e
      | Ok index =>
          match list_index game_counts index with
          | Raise e => Raise e
          | Ok t =>
              match thresholds_for rest game_counts with
              | Raise e => Raise e
              | Ok ts => Ok (t :: ts)
              end
          end
      end
  end.

Definition percentile_thresholds (game_counts : list Z) : result (list Z) :=
  thresholds_for (seqZ 1 10) game_counts.

(** [score = 1; for threshold in percentile_thresholds:
     if games <= threshold: break; score += 1]. *)
Fixpoint scan_thresholds (games : Z) (thresholds : list Z) (score : Z) : Z :=
  match thresholds with
  | [] => score
  | threshold :: rest =>
      if games <=? threshold then score
      else scan_thresholds games rest (score + 1)
  end.

Definition confidence_ladder (games : Z) : Q :=
  if 1000 <=? games then 1%Q
  else if 100 <=? games then (8 # 10)%Q
  else if 10 <=? games then (6 # 10)%Q
  else (4 # 10)%Q.

Definition set_scores (score : Z) (confidence : Q) (s : PopularityStats)
    : PopularityStats :=
  mkStats score (frequency_count s) (white_wins s) (black_wins s) (draws s)
          (games_analyzed s) (avg_rating s) confidence (analysis_date s).

(** The body of [for fen, stats in self.stats.items()]. *)
Definition score_record (thresholds : list Z) (s : PopularityStats)
    : PopularityStats :=
  if games_analyzed s =? 0 then set_scores 0 0%Q s
  else set_scores (Z.min (scan_thresholds (games_analyzed s) thresholds 1) 10)
                  (confidence_ladder (games_analyzed s)) s.

(** [[stats.games_analyzed for stats in self.stats.values()
      if stats.games_analyzed > 0]]; the list is sorted before it is
    used, so the order in which the dictionary is walked does not show. *)
Definition positive_counts (stats : gmap string PopularityStats) : list Z :=
  filter (fun g => 0 < g) (games_analyzed <$> (map_to_list stats).*2).

(** The scoring pass. It writes nothing before the thresholds are
    complete, so an exception leaves the map as it was. *)
Definition calculate_popularity_scores (stats : gmap string PopularityStats)
    : result (gmap string PopularityStats) :=
  match positive_counts stats with
  | [] => Ok stats
  | game_counts =>
      match percentile_thresholds (merge_sort Z.le game_counts) with
      | Raise e => Raise e
      | Ok thresholds => Ok (score_record thresholds <$> stats)
      end
  end.

(** ** Result document: [save_final_results] *)

(** The values a statistics dictionary holds. *)
Inductive pyval : Type :=
  | PInt (n : Z)
  | PFloat (q : Q)
  | PStr (s : string)
  | PNone.

Definition optional_float (o : option Q) : pyval :=
  match o with
  | Some q => PFloat q
  | None => PNone
  end.

(** [dataclasses.asdict(stats)]. *)
Definition asdict (s : PopularityStats) : gmap string pyval :=
  list_to_map
    [ ("popularity_score", PInt (popularity_score s));
      ("frequency_count", PInt (frequency_count s));
      ("white_wins", PInt (white_wins s));
      ("black_wins", PInt (black_wins s));
      ("draws", PInt (draws s));
      ("games_analyzed", PInt (games_analyzed s));
      ("avg_rating", optional_float (avg_rating s));
      ("confidence_score", PFloat (confidence_score s));
      ("analysis_date", PStr (analysis_date s)) ].

Definition set_analysis_date (date : string) (s : PopularityStats)
    : PopularityStats :=
  mkStats (popularity_score s) (frequency_count s) (white_wins s)
          (black_wins s) (draws s) (games_analyzed s) (avg_rating s)
          (confidence_score s) date.

(** [bucket / stats.games_analyzed], a true division. *)
Definition rate (bucket games : Z) : Q := (inject_Z bucket / inject_Z games)%Q.

(** The dictionary stored under one key of [final_data]; the record
    already carries the analysis date. *)
Definition final_stats_dict (s : PopularityStats) : gmap string pyval :=
  if 0 <? games_analyzed s then
    <["draw_rate" := PFloat (rate (draws s) (games_analyzed s))]>
      (<["black_win_rate" := PFloat (rate (black_wins s) (games_analyzed s))]>
         (<["white_win_rate" := PFloat (rate (white_wins s) (games_analyzed s))]>
            (asdict s)))
  else
    <["draw_rate" := PNone]>
      (<["black_win_rate" := PNone]>
         (<["white_win_rate" := PNone]> (asdict s))).

(** The statistics as [save_final_results] leaves them, and the
    document [final_data] it dumps; [now] is [datetime.now().isoformat()]. *)
Definition save_final_results (now : string)
    (stats : gmap string PopularityStats)
    : gmap string PopularityStats * gmap string (gmap string pyval) :=
  let stats' := set_analysis_date now <$> stats in
  (stats', final_stats_dict <$> stats').

(** ** Files, as far as crash safety is concerned *)

(** A file system maps a path to the bytes stored under it. *)
Inductive fs_op : Type :=
  | OpenTruncate (path : string)
  | WriteChunk (path : string) (data : string)
  | Rename (src dst : string)
  | Remove (path : string).

Definition apply_op (fs : gmap string string) (op : fs_op) : gmap string string :=
  match op with
  | OpenTruncate path => <[path := ""]> fs
  | WriteChunk path data =>
      match fs !! path with
      | Some old => <[path := old +:+ data]> fs
      | None => <[path := data]> fs
      end
  | Rename src dst =>
      match fs !! src with
      | Some bytes => <[dst := bytes]> (delete src fs)
      | None => fs
      end
  | Remove path => delete path fs
  end.

(** The file system a crash leaves when only the first [k] operations
    of [ops] reached it. *)
Definition crash_after (k : nat) (ops : list fs_op) (fs : gmap string string)
    : gmap string string :=
  foldl apply_op fs (take k ops).

Definition is_rename (op : fs_op) : bool :=
  match op with
  | Rename _ _ => true
  | _ => false
  end.

(** [with open(self.checkpoint_file, 'w') as f: json.dump(checkpoint_data, f, indent=2)]:
    the file is opened for writing under its own name and the encoder's
    chunks are written to it one after the other. [chunks] is what
    [json.dump] produces for [checkpoint_data]. *)
Definition save_checkpoint (checkpoint_file : string) (chunks : list string)
    : list fs_op :=
  OpenTruncate checkpoint_file :: (WriteChunk checkpoint_file <$> chunks).


(** ** Download Manager: [download_file_with_retry] *)

(** How one pass through the body of the retry loop ends. *)
Inductive attempt_outcome : Type :=
  | RequestFailed      (* the request or the transfer raised *)
  | ValidationFailed   (* the downloaded file did not validate *)
  | MoveFailed         (* [safe_file_move] returned [False] *)
  | Installed.         (* validated and moved: [return True] *)

Inductive event : Type :=
  | EvAttempt (attempt : nat)        (* "Downloading ... (attempt k/max)" *)
  | EvSleep (seconds : Z)            (* [time.sleep(seconds)] *)
  | EvDownload (month : string)      (* the worker starts a download *)
  | EvPut (month : string)           (* [self.download_queue.put(...)] *)
  | EvShutdown                       (* [self.shutdown_requested.set()] *)
  | EvProcess (month : string)       (* [process_local_file] on the unit *)
  | EvCheckpoint.                    (* [self.save_checkpoint()] *)

(** [for attempt in range(max_retries)], with [remaining] passes left
    from [attempt] on. A failed validation and a failed move [continue];
    an exception sleeps, unless the attempt was the last one. *)
Fixpoint retry_loop (outcome : nat -> attempt_outcome) (max_retries : nat)
    (attempt remaining : nat) : bool * list event :=
  match remaining with
  | O => (false, [])
  | S remaining' =>
      match outcome attempt with
      | Installed => (true, [EvAttempt (attempt + 1)])
      | ValidationFailed | MoveFailed =>
          let '(ok, evs) := retry_loop outcome max_retries (S attempt) remaining' in
          (ok, EvAttempt (attempt + 1) :: evs)
      | RequestFailed =>
          if (attempt <? max_retries - 1)%nat then
            let '(ok, evs) := retry_loop outcome max_retries (S attempt) remaining' in
            (ok, EvAttempt (attempt + 1) :: EvSleep 30 :: evs)
          else (false, [EvAttempt (attempt + 1)])
      end
  end.

Definition download_file_with_retry (outcome : nat -> attempt_outcome)
    (max_retries : nat) : bool * list event :=
  retry_loop outcome max_retries 0 max_retries.

(** ** Pipeline: the two workers of [run_analysis] *)

(** What the outside world answers when a worker asks: the state of the
    cached file of a unit, how each download attempt ends, whether the
    installed file validates once more, and what [process_local_file]
    finds in the unit and returns. *)
Inductive cache_state : Type := NoCache | ValidCache | InvalidCache.

Record World : Type := mkWorld {
  cached : string -> cache_state;
  attempt_result : string -> nat -> attempt_outcome;
  validates_after_download : string -> bool;
  unit_games : string -> list string;
  unit_ok : string -> bool
}.

(** The state the two workers share, with the position of the download
    worker in its [for month in months] loop and a trace of what was
    done. *)
Record Analyzer : Type := mkAnalyzer {
  months_left : list string;
  download_queue : list string;
  download_complete : bool;
  shutdown_requested : bool;
  processed_months : gset string;
  stats : gmap string PopularityStats;
  process_worker_done : bool;
  trace : list event
}.

(** [queue.Queue(maxsize=3)]. *)
Definition queue_maxsize : nat := 3.

(** [remaining_months = [month for month in months
                         if month not in self.processed_months]]. *)
Definition remaining_months (months : list string) (processed : gset string)
    : list string :=
  filter (fun month => month ∉ processed) months.

(** The state in which [run_analysis] starts the two threads. *)
Definition start_workers (months : list string) (processed : gset string)
    (st : gmap string PopularityStats) : Analyzer :=
  mkAnalyzer (remaining_months months processed) [] false false processed st
             false [].

(** The download worker leaves its loop: [break] or the end of the
    list, then [finally: self.download_complete.set()]. *)
Definition leave_download_loop (shutdown : bool) (evs : list event)
    (a : Analyzer) : Analyzer :=
  mkAnalyzer [] (download_queue a) true (shutdown_requested a || shutdown)
             (processed_months a) (stats a) (process_worker_done a)
             (trace a ++ evs).

Definition next_month (rest : list string) (a : Analyzer) : Analyzer :=
  mkAnalyzer rest (download_queue a) (download_complete a)
             (shutdown_requested a) (processed_months a) (stats a)
             (process_worker_done a) (trace a).

(** [self.download_queue.put((month, path))] and on to the next month;
    [put] blocks while the queue is full, and the step is not taken
    then. *)
Definition put_and_continue (month : string) (rest : list string)
    (before after : list event) (a : Analyzer) : option Analyzer :=
  if (length (download_queue a) <? queue_maxsize)%nat then
    Some (mkAnalyzer rest (download_queue a ++ [month]) (download_complete a)
            (shutdown_requested a) (processed_months a) (stats a)
            (process_worker_done a)
            (trace a ++ before ++ [EvPut month] ++ after))
  else None.

(** One iteration of the loop of [download_worker]. *)
Definition download_worker_step (w : World) (a : Analyzer) : option Analyzer :=
  if download_complete a then None
  else
    match months_left a with
    | [] => Some (leave_download_loop false [] a)
    | month :: rest =>
        if shutdown_requested a then Some (leave_download_loop false [] a)
        else if decide (month ∈ processed_months a) then Some (next_month rest a)
        else
          match cached w month with
          | ValidCache => put_and_continue month rest [] [] a
          | NoCache | InvalidCache =>
              let '(ok, evs) := download_file_with_retry (attempt_result w month) 3 in
              if ok then
                if validates_after_download w month
                then put_and_continue month rest (EvDownload month :: evs)
                       [EvSleep 1] a
                else Some (leave_download_loop true
                             (EvDownload month :: evs ++ [EvShutdown]) a)
              else Some (leave_download_loop true
                           (EvDownload month :: evs ++ [EvShutdown]) a)
          end
    end.

Section Workers.
Variable read_game : string -> result (option Game).
Variable py_int : string -> option Z.
Variable target_fens : gset string.

(** One iteration of the loop of [process_worker]: a unit from the
    queue is processed, recorded as processed when
    [process_local_file] succeeded, and checkpointed; on an empty
    queue the worker leaves once the downloads are complete. *)
Definition process_worker_step (w : World) (a : Analyzer) : option Analyzer :=
  if process_worker_done a then None
  else
    match download_queue a with
    | month :: rest =>
        let stats' :=
          process_games read_game py_int target_fens (unit_games w month) (stats a) in
        if unit_ok w month then
          Some (mkAnalyzer (months_left a) rest (download_complete a)
                  (shutdown_requested a) ({[month]} ∪ processed_months a) stats'
                  (process_worker_done a)
                  (trace a ++ [EvProcess month; EvCheckpoint]))
        else
          Some (mkAnalyzer (months_left a) rest (download_complete a)
                  (shutdown_requested a) (processed_months a) stats'
                  (process_worker_done a) (trace a ++ [EvProcess month]))
    | [] =>
        if download_complete a then
          Some (mkAnalyzer (months_left a) [] true (shutdown_requested a)
                  (processed_months a) (stats a) true (trace a))
        else None
    end.

(** Which thread moves next: the download worker, the process worker,
    or the main thread on a [KeyboardInterrupt]. *)
Inductive action : Type := Download | Process | Interrupt.

Definition step (w : World) (a : Analyzer) (act : action) : Analyzer :=
  match act with
  | Download => default a (download_worker_step w a)
  | Process => default a (process_worker_step w a)
  | Interrupt =>
      mkAnalyzer (months_left a) (download_queue a) (download_complete a) true
                 (processed_months a) (stats a) (process_worker_done a)
                 (trace a ++ [EvShutdown])
  end.

(** A run of the two workers under a schedule; a thread that cannot
    move (blocked on the queue, or finished) leaves the state as it is. *)
Definition run_workers (w : World) (schedule : list action) (a : Analyzer)
    : Analyzer :=
  foldl (step w) a schedule.

(** [run_analysis] from the month list on: the workers run on the months
    that are left, the scoring pass runs on what they leave, and the
    result document is written. An exception of the scoring pass is the
    "critical error" of [run_analysis], and no document is written. *)
Definition run_analysis (w : World) (schedule : list action) (now : string)
    (months : list string) (processed : gset string)
    (st : gmap string PopularityStats)
    : Analyzer * option (gmap string (gmap string pyval)) :=
  let a0 := start_workers months processed st in
  let a :=
    match months_left a0 with
    | [] => a0
    | _ => run_workers w schedule a0
    end in
  match calculate_popularity_scores (stats a) with
  | Raise _ => (a, None)
  | Ok scored =>
      let '(dated, final_data) := save_final_results now scored in
      (mkAnalyzer (months_left a) (download_queue a) (download_complete a)
         (shutdown_requested a) (processed_months a) dated
         (process_worker_done a) (trace a),
       Some final_data)
  end.
End Workers.

(** ** Vocabulary of the statements *)

(** *** Aggregator *)

(** The updates of a list that are for one key, in order. *)
Definition updates_for (fen : string) (ups : list update) : list update :=
  filter (fun u => u_fen u = fen) ups.

Definition ratings_for (fen : string) (ups : list update) : list Q :=
  u_rating <$> updates_for fen ups.

(** The record of a key after the updates for it, one after the other. *)
Definition record_after (ups : list update) (s : PopularityStats) : PopularityStats :=
  foldl (fun r u => fst (update_record (u_rating u) (u_result u) r)) s ups.

Definition Qsum (l : list Q) : Q := foldr Qplus 0%Q l.

(** How many of the updates carry the result [token]. *)
Definition count_result (token : string) (ups : list update) : Z :=
  Z.of_nat (length (filter (fun u => u_result u = token) ups)).

(** [avg] is the arithmetic mean of [ratings]: nothing for no rating,
    the sum over the number otherwise. *)
Definition is_mean_of (avg : option Q) (ratings : list Q) : Prop :=
  match avg, ratings with
  | None, [] => True
  | Some a, _ :: _ => (a == Qsum ratings / inject_Z (Z.of_nat (length ratings)))%Q
  | _, _ => False
  end.

(** No record counts a negative number of games. *)
Definition nonneg_counts (stats : gmap string PopularityStats) : Prop :=
  map_Forall (fun _ r => 0 ≤ games_analyzed r) stats.

(** A record that holds exactly what the updates [ups] put into a zero
    record. *)
Definition tracks (s : PopularityStats) (ups : list update) : Prop :=
  games_analyzed s = Z.of_nat (length ups) ∧
  frequency_count s = Z.of_nat (length ups) ∧
  white_wins s = count_result "1-0" ups ∧
  black_wins s = count_result "0-1" ups ∧
  draws s = count_result "1/2-1/2" ups ∧
  is_mean_of (avg_rating s) (u_rating <$> ups).

(** *** Game Parser *)

(** A rating header that is missing, or that reads as zero. *)
Definition rating_missing_or_zero (py_int : string → option Z) (g : Game)
    (key : string) : Prop :=
  match headers g !! key with
  | None => True
  | Some v => py_int v = Some 0
  end.

(** A rating header that is there and is not a number. *)
Definition rating_not_numeric (py_int : string → option Z) (g : Game)
    (key : string) : Prop :=
  ∃ v, headers g !! key = Some v ∧ py_int v = None.

(** The FENs among the plies that the replay looks at. *)
Definition positions_reached (g : Game) : list string :=
  omap (fun ply => match ply with Ok fen => Some fen | Raise _ => None end)
       (take max_plies (mainline g)).

(** A record from which [process_game] takes nothing: it does not parse,
    a rating header is not a number, or no position it reaches is
    tracked. *)
Definition unusable (read_game : string → result (option Game))
    (py_int : string → option Z) (target_fens : gset string)
    (game_text : string) : Prop :=
  match read_game game_text with
  | Raise _ => True
  | Ok None => True
  | Ok (Some g) =>
      rating_not_numeric py_int g "WhiteElo" ∨
      rating_not_numeric py_int g "BlackElo" ∨
      ∀ fen, fen ∈ positions_reached g → fen ∉ target_fens
  end.

(** *** Popularity Scorer *)

Definition index_in_range (n i : Z) : bool :=
  match decile_index i n with
  | Ok k => (0 <=? k) && (k <? n)
  | Raise _ => false
  end.

(** The ten indices are in range for the [fuel] lengths from [n] on. *)
Fixpoint indices_in_range_upto (fuel : nat) (n : Z) : bool :=
  match fuel with
  | O => true
  | S fuel' =>
      forallb (index_in_range n) (seqZ 1 10) && indices_in_range_upto fuel' (n + 1)
  end.

(** The number of positions up to which the ten indices are checked
    one by one, by evaluation. *)
Definition checked_sizes : Z := 50000.

Definition score_monotone (stats' : gmap string PopularityStats) : Prop :=
  ∀ a b sa sb, stats' !! a = Some sa → stats' !! b = Some sb →
    0 < games_analyzed sb → games_analyzed sa ≤ games_analyzed sb →
    popularity_score sa ≤ popularity_score sb
    ∧ (games_analyzed sa = 0 → popularity_score sa = 0 ∧ 1 ≤ popularity_score sb).

(** The score a key has after the scoring pass. *)
Definition scored_popularity (stats : gmap string PopularityStats)
    (fen : string) : option Z :=
  match calculate_popularity_scores stats with
  | Ok stats' => popularity_score <$> stats' !! fen
  | Raise _ => None
  end.

(** The decile index as the specification words it,
    [clamp(floor(i/10 * n) - 1, 0, n - 1)], in exact arithmetic. *)
Definition spec_decile_index (i n : Z) : Z :=
  Z.max 0 (Z.min (i * n / 10 - 1) (n - 1)).

Definition spec_thresholds (sorted : list Z) : list Z :=
  (fun i => nth (Z.to_nat (spec_decile_index i (Z.of_nat (length sorted)))) sorted 0)
    <$> seqZ 1 10.

(** The score as the specification words it: one more than the number
    of thresholds strictly below the count, capped at ten. *)
Definition spec_score (games : Z) (thresholds : list Z) : Z :=
  Z.min (1 + Z.of_nat (length (filter (fun t => t < games) thresholds))) 10.

(** *** Result document *)

Definition rate_fields (d : gmap string pyval) (white black draw : option pyval)
    : Prop :=
  d !! "white_win_rate" = white ∧ d !! "black_win_rate" = black
  ∧ d !! "draw_rate" = draw.

Definition rates_of (s : PopularityStats) (d : gmap string pyval) : Prop :=
  rate_fields d (Some (PFloat (rate (white_wins s) (games_analyzed s))))
                (Some (PFloat (rate (black_wins s) (games_analyzed s))))
                (Some (PFloat (rate (draws s) (games_analyzed s)))).

(** The result document as the specification words it: rates where
    games were seen, no rate fields where none were. *)
Definition spec_rate_fields (now : string) (stats : gmap string PopularityStats)
    : Prop :=
  ∀ fen s d, stats !! fen = Some s →
    (save_final_results now stats).2 !! fen = Some d →
    (0 < games_analyzed s → rates_of s d)
    ∧ (games_analyzed s = 0 → rate_fields d None None None).

(** *** Files *)

(** The whole document a list of chunks spells. *)
Definition document (chunks : list string) : string :=
  foldr String.append "" chunks.

(** An operation that leaves the file under [path] alone. *)
Definition leaves_alone (path : string) (op : fs_op) : Prop :=
  match op with
  | OpenTruncate p | WriteChunk p _ | Remove p => p ≠ path
  | Rename src dst => src ≠ path ∧ dst ≠ path
  end.

(** *** Workers *)

Definition is_attempt (e : event) : bool :=
  match e with
  | EvAttempt _ => true
  | _ => false
  end.

Definition attempts (evs : list event) : nat := length (List.filter is_attempt evs).

(** What the download worker does: attempts, waits, downloads, puts. *)
Definition is_download_event (e : event) : bool :=
  match e with
  | EvAttempt _ | EvSleep _ | EvDownload _ | EvPut _ => true
  | _ => false
  end.

Definition download_events (evs : list event) : list event :=
  List.filter is_download_event evs.

(** An event that says a unit was downloaded, queued or processed. *)
Definition concerns (U : string) (e : event) : Prop :=
  e = EvDownload U ∨ e = EvPut U ∨ e = EvProcess U.

(** The state of a run in which the completed unit [U] was left alone. *)
Definition untouched (U : string) (a : Analyzer) : Prop :=
  (U ∈ processed_months a) ∧ (U ∉ download_queue a)
  ∧ Forall (fun e => ¬ concerns U e) (trace a).

(** The workers started on a list of months as it is, unfiltered. *)
Definition worklist_state (worklist : list string) (processed : gset string)
    (st : gmap string PopularityStats) : Analyzer :=
  mkAnalyzer worklist [] false false processed st false [].

(** ** Example inputs *)

(** A reader of decimal numerals, to run the parser on examples. *)
Definition digit_value (c : Ascii.ascii) : option Z :=
  let n := Z.of_N (Ascii.N_of_ascii c) in
  if (48 <=? n) && (n <=? 57) then Some (n - 48) else None.

Fixpoint digits_value (s : string) (acc : Z) : option Z :=
  match s with
  | EmptyString => Some acc
  | String c rest =>
      match digit_value c with
      | Some d => digits_value rest (10 * acc + d)
      | None => None
      end
  end.

Definition decimal_int (s : string) : option Z :=
  match s with
  | EmptyString => None
  | _ => digits_value s 0
  end.

Definition sample_game (white black res : string) (fens : list string) : Game :=
  mkGame (<["WhiteElo" := white]> (<["BlackElo" := black]> (<["Result" := res]> ∅)))
         (Ok <$> fens).

Definition sample_read_game (text : string) : result (option Game) :=
  if decide (text = "game 1") then
    Ok (Some (sample_game "1500" "1600" "1-0" ["start"; "A"]))
  else if decide (text = "game 2") then
    Ok (Some (sample_game "1400" "1450" "1/2-1/2" ["start"; "A"]))
  else if decide (text = "game 3") then
    Ok (Some (sample_game "1800" "1820" "0-1" ["start"; "B"]))
  else if decide (text = "unrated") then
    Ok (Some (sample_game "1500" "0" "1-0" ["start"; "A"]))
  else if decide (text = "anonymous") then
    Ok (Some (sample_game "?" "1600" "1-0" ["start"; "A"]))
  else if decide (text = "broken") then Raise (LibraryError "read_game")
  else Ok None.

Definition sample_target_fens : gset string := {["A"; "B"]}.

Definition sample_stats : gmap string PopularityStats :=
  <["A" := zero_stats]> (<["B" := zero_stats]> ∅).

Definition sample_batches : list (list update) :=
  [ [mkUpdate "A" 1550 "1-0"];
    [mkUpdate "A" 1425 "1/2-1/2"; mkUpdate "C" 1425 "1/2-1/2"];
    [mkUpdate "B" 1810 "0-1"] ].

Definition sample_regrouped : list (list update) :=
  [ [mkUpdate "B" 1810 "0-1"; mkUpdate "C" 1425 "1/2-1/2"]; [];
    [mkUpdate "A" 1425 "1/2-1/2"; mkUpdate "A" 1550 "1-0"] ].

(** Ninety positions, the i-th seen in i games. *)
Definition ninety_positions : gmap string PopularityStats :=
  list_to_map
    ((fun i => ("position " +:+ pretty i, mkStats 0 i 0 0 0 i None 0%Q ""))
       <$> seqZ 1 90).

Definition sample_now : string := "2025-07-14T12:00:00".

Definition sample_checkpoint_file : string := "stats_checkpoint.json".
Definition sample_previous_checkpoint : string :=
  "{ months up to 2021-07, their statistics }".
Definition sample_chunks : list string :=
  ["{"; " months up to 2021-08,"; " their statistics }"].
Definition sample_fs : gmap string string :=
  {[ sample_checkpoint_file := sample_previous_checkpoint ]}.

Definition sample_world : World :=
  mkWorld (fun _ => NoCache) (fun _ _ => Installed) (fun _ => true)
          (fun month => if decide (month = "2021-08") then ["game 3"] else [])
          (fun _ => true).


(** * The rest of the analyzer and the enrichment report *)

(** ** Month list: [generate_month_list] *)

(** [f"{year}-{month:02d}"]. *)
Definition month_token (year month : Z) : string :=
  pretty year +:+ "-"
  +:+ (if (0 <=? month) && (month <? 10) then "0" +:+ pretty month else pretty month).

(** The [while] loop of [generate_month_list], at most [fuel] passes. *)
Fixpoint month_loop (fuel : nat) (current_year current_month year month : Z)
    : list string :=
  match fuel with
  | O => []
  | S fuel' =>
      if (year <? current_year)
         || ((year =? current_year) && (month <=? current_month))
      then
        month_token year month
          :: (if 12 <? month + 1
              then month_loop fuel' current_year current_month (year + 1) 1
              else month_loop fuel' current_year current_month year (month + 1))
      else []
  end.

(** [generate_month_list], from the two numbers of [self.start_date] and
    the year and month of [datetime.now()]. The loop passes once per
    month: at most [13 - start_month] times in the first year and twelve
    times in each later one. *)
Definition generate_month_list (start_year start_month current_year current_month : Z)
    : list string :=
  month_loop
    (Z.to_nat (Z.max 1 (13 - start_month) + 12 * Z.max 0 (current_year - start_year)))
    current_year current_month start_year start_month.

(** ** Checkpoint Store: the document and [load_checkpoint] *)

(** The document [save_checkpoint] dumps and [load_checkpoint] reads
    back; the statistics are in the order of the document. *)
Record checkpoint_data : Type := mkCheckpoint {
  cp_processed_months : list string;
  cp_stats : list (string * gmap string pyval);
  cp_last_updated : string
}.

(** [checkpoint_data] as [save_checkpoint] builds it; [now] is
    [datetime.now().isoformat()]. *)
Definition checkpoint_of (processed : gset string)
    (stats : gmap string PopularityStats) (now : string) : checkpoint_data :=
  mkCheckpoint (elements processed) (map_to_list (asdict <$> stats)) now.

Definition dataclass_fields : gset string :=
  {[ "popularity_score"; "frequency_count"; "white_wins"; "black_wins"; "draws";
     "games_analyzed"; "avg_rating"; "confidence_score"; "analysis_date" ]}.

(** The value of a keyword argument, or the default of the field. *)
Definition int_field (d : gmap string pyval) (key : string) (dflt : Z) : option Z :=
  match d !! key with
  | None => Some dflt
  | Some (PInt n) => Some n
  | Some _ => None
  end.

Definition float_field (d : gmap string pyval) (key : string) (dflt : Q) : option Q :=
  match d !! key with
  | None => Some dflt
  | Some (PFloat q) => Some q
  | Some (PInt n) => Some (inject_Z n)
  | Some _ => None
  end.

Definition optional_float_field (d : gmap string pyval) (key : string)
    : option (option Q) :=
  match d !! key with
  | None | Some PNone => Some None
  | Some (PFloat q) => Some (Some q)
  | Some (PInt n) => Some (Some (inject_Z n))
  | Some _ => None
  end.

Definition str_field (d : gmap string pyval) (key dflt : string) : option string :=
  match d !! key with
  | None => Some dflt
  | Some (PStr s) => Some s
  | Some _ => None
  end.

(** [PopularityStats( **stats_data)]: a key that is no field raises
    [TypeError], a field that is missing takes its default. The
    dataclass stores any value it is given; a value of another kind than
    its field holds no record of this model, and stands with the
    documents that raise. *)
Definition from_dict (d : gmap string pyval) : option PopularityStats :=
  if decide (dom d ⊆ dataclass_fields) then
    popularity ← int_field d "popularity_score" 0;
    frequency ← int_field d "frequency_count" 0;
    white ← int_field d "white_wins" 0;
    black ← int_field d "black_wins" 0;
    drawn ← int_field d "draws" 0;
    games ← int_field d "games_analyzed" 0;
    avg ← optional_float_field d "avg_rating";
    confidence ← float_field d "confidence_score" 0%Q;
    date ← str_field d "analysis_date" "";
    Some (mkStats popularity frequency white black drawn games avg confidence date)
  else None.

(** [for fen, stats_data in checkpoint_data.get('stats', {}).items():
       self.stats[fen] = PopularityStats( **stats_data)];
    an exception leaves the loop with what was restored so far. *)
Fixpoint restore_stats (entries : list (string * gmap string pyval))
    (stats : gmap string PopularityStats) : gmap string PopularityStats :=
  match entries with
  | [] => stats
  | (fen, stats_data) :: rest =>
      match from_dict stats_data with
      | Some s => restore_stats rest (<[fen := s]> stats)
      | None => stats
      end
  end.

(** [load_checkpoint] on the completed set and the statistics; [None]
    is a checkpoint file that is not there or cannot be read as a
    document. *)
Definition load_checkpoint (document : option checkpoint_data)
    (processed : gset string) (stats : gmap string PopularityStats)
    : gset string * gmap string PopularityStats :=
  match document with
  | None => (processed, stats)
  | Some cp =>
      (list_to_set (cp_processed_months cp), restore_stats (cp_stats cp) stats)
  end.

(** ** Stream Processor: [process_local_file] *)

(** The marker between two games, three line feeds. *)
Definition line_feed : Ascii.ascii := Ascii.ascii_of_nat 10.
Definition record_separator : string :=
  String line_feed (String line_feed (String line_feed EmptyString)).

(** [s] without the prefix [sep], when it starts with it. *)
Fixpoint strip_prefix (sep s : string) : option string :=
  match sep, s with
  | EmptyString, _ => Some s
  | String a sep', String b s' =>
      if Ascii.eqb a b then strip_prefix sep' s' else None
  | String _ _, EmptyString => None
  end.

(** [s.split(sep, 1)] when [sep in s]: the text before the first
    occurrence of [sep] and the text after it. *)
Fixpoint split_once (sep s : string) : option (string * string) :=
  match strip_prefix sep s with
  | Some rest => Some (EmptyString, rest)
  | None =>
      match s with
      | EmptyString => None
      | String c s' =>
          match split_once sep s' with
          | Some (before, rest) => Some (String c before, rest)
          | None => None
          end
      end
  end.

(** [while sep in game_buffer: game_text, game_buffer = game_buffer.split(sep, 1)]:
    the texts split off and the buffer that is left. Every pass shortens
    the buffer, so its length bounds the passes. *)
Fixpoint drain (fuel : nat) (game_buffer : string) : list string * string :=
  match fuel with
  | O => ([], game_buffer)
  | S fuel' =>
      match split_once record_separator game_buffer with
      | None => ([], game_buffer)
      | Some (game_text, rest) =>
          let '(games, final) := drain fuel' rest in
          (game_text :: games, final)
      end
  end.

(** One chunk: a chunk that does not decode is skipped with the buffer
    as it was; a decoded chunk is appended and the buffer drained. *)
Definition feed (state : list string * string) (chunk : option string)
    : list string * string :=
  match chunk with
  | None => state
  | Some decoded_chunk =>
      let game_buffer := state.2 +:+ decoded_chunk in
      let '(games, rest) := drain (String.length game_buffer) game_buffer in
      (state.1 ++ games, rest)
  end.

(** What [reader.read(8192)] gives, chunk by chunk, each as what
    [chunk.decode('utf-8')] makes of it ([None] when it raises), and
    whether the reader raises after the last of them. *)
Record archive : Type := mkArchive {
  chunks : list (option string);
  read_fails : bool
}.

Section StreamProcessor.
(** [not game_text.strip()]. *)
Variable blank : string → bool.
Variable read_game : string → result (option Game).
Variable py_int : string → option Z.
Variable target_fens : gset string.

(** The texts handed to [process_game]: the texts split off that are
    not blank, and at the end of the stream what is left in the buffer,
    when it is not blank. A reader that raises ends the loop before
    the buffer is flushed. *)
Definition stream_games (a : archive) : list string :=
  let '(games, game_buffer) := foldl feed ([], EmptyString) (chunks a) in
  filter (fun game_text => blank game_text = false)
         (if read_fails a then games else games ++ [game_buffer]).

(** The statistics [process_local_file] leaves and what it returns. *)
Definition process_local_file (a : archive) (stats : gmap string PopularityStats)
    : gmap string PopularityStats * bool :=
  (process_games read_game py_int target_fens (stream_games a) stats,
   negb (read_fails a)).
End StreamProcessor.

(** ** File helpers: [safe_file_remove] and [safe_file_move] *)

(** How one try at the file operation ends: done (for a removal, also
    when the file is not there), a [PermissionError], or another
    exception. *)
Inductive try_outcome : Type := TryDone | TryPermissionError | TryOtherError.

(** [for attempt in range(max_retries)] of both helpers, with
    [remaining] passes left from [attempt] on: what is returned or
    raised, and how many tries were made. On Windows a
    [PermissionError] waits and tries again, elsewhere it is raised
    again; another exception gives [False] on the last attempt and
    tries again before. *)
Fixpoint file_retry_loop (windows : bool) (outcome : nat → try_outcome)
    (max_retries attempt remaining : nat) : result bool * nat :=
  match remaining with
  | O => (Ok false, O)
  | S remaining' =>
      match outcome attempt with
      | TryDone => (Ok true, 1%nat)
      | TryPermissionError =>
          if windows then
            let '(r, tries) :=
              file_retry_loop windows outcome max_retries (S attempt) remaining' in
            (r, S tries)
          else (Raise (LibraryError "PermissionError"), 1%nat)
      | TryOtherError =>
          if (attempt =? max_retries - 1)%nat then (Ok false, 1%nat)
          else
            let '(r, tries) :=
              file_retry_loop windows outcome max_retries (S attempt) remaining' in
            (r, S tries)
      end
  end.

(** [safe_file_remove(filepath, max_retries)]; [outcome k] is how the
    removal ends on try [k], [windows] is
    [platform.system() == "Windows"]. *)
Definition safe_file_remove (windows : bool) (outcome : nat → try_outcome)
    (max_retries : nat) : result bool * nat :=
  file_retry_loop windows outcome max_retries 0 max_retries.

(** [safe_file_move(src, dst, max_retries)], the same loop around
    [shutil.move]. *)
Definition safe_file_move (windows : bool) (outcome : nat → try_outcome)
    (max_retries : nat) : result bool * nat :=
  file_retry_loop windows outcome max_retries 0 max_retries.

(** ** Target Universe: [load_target_fens] *)

Section TargetUniverse.
(** [fen.strip()]. *)
Variable strip : string → string.

(** The loop over the keys of one ECO file. *)
Definition add_target_fen (state : gset string * gmap string PopularityStats)
    (key : string) : gset string * gmap string PopularityStats :=
  let fen := strip key in
  if decide (fen = EmptyString) then state
  else
    ({[fen]} ∪ state.1,
     match state.2 !! fen with
     | Some _ => state.2
     | None => <[fen := zero_stats]> state.2
     end).

(** [load_target_fens]: every file is the list of the keys of its
    object, or [None] when it is not there or cannot be read as one. *)
Definition load_target_fens (eco_files : list (option (list string)))
    (target_fens : gset string) (stats : gmap string PopularityStats)
    : gset string * gmap string PopularityStats :=
  foldl (fun state eco_file =>
           match eco_file with
           | Some keys => foldl add_target_fen state keys
           | None => state
           end)
        (target_fens, stats) eco_files.

(** The positions the files name. *)
Definition named_fens (eco_files : list (option (list string))) : gset string :=
  list_to_set
    (filter (fun fen => fen ≠ EmptyString)
       (strip <$> concat (omap id eco_files))).

End TargetUniverse.

(** ** Enrichment report: [check_enrichment_status] *)

(** What [json.load] returns. *)
#[warnings="-register-all"] Inductive json : Type :=
  | JNull
  | JBool (b : bool)
  | JNumber (q : Q)
  | JString (s : string)
  | JArray (items : list json)
  | JObject (fields : gmap string json).

(** [isinstance(position_data, dict) and 'analysis_json' in position_data],
    then the same test for ['last_enriched_at'] in the analysis. *)
Definition is_enriched (position_data : json) : bool :=
  match position_data with
  | JObject fields =>
      match fields !! "analysis_json" with
      | Some (JObject analysis) => bool_decide (is_Some (analysis !! "last_enriched_at"))
      | _ => false
      end
  | _ => false
  end.

(** The body of the loop for one file: [(enriched, positions)] to add,
    or nothing. [None] is a file that is not there or that [json.load]
    rejects; a document that is no object raises at [len] or at
    [.items()], before the totals are touched. *)
Definition file_counts (eco_file : option json) : option (Z * Z) :=
  match eco_file with
  | Some (JObject eco_data) =>
      Some (Z.of_nat (length (filter (fun kv => is_enriched kv.2 = true)
                                     (map_to_list eco_data))),
            Z.of_nat (size eco_data))
  | _ => None
  end.

(** [check_enrichment_status]: [(total_enriched, total_positions)]. *)
Definition check_enrichment_status (eco_files : list (option json)) : Z * Z :=
  foldl (fun totals eco_file =>
           match file_counts eco_file with
           | Some (enriched, positions) => (totals.1 + enriched, totals.2 + positions)
           | None => totals
           end)
        (0, 0) eco_files.

(** ** The whole run: [run_analysis] from its first line *)

Section WholeRun.
Variable strip : string → string.
Variable read_game : string → result (option Game).
Variable py_int : string → option Z.

(** [run_analysis(eco_files)] on a fresh analyzer: the targets are
    loaded, then the checkpoint, then the month list is generated from
    the start date and the date of the day (both already read as a year
    and a month), and the run goes on as [run_analysis] above, on the
    targets just loaded. *)
Definition run_analysis_from_start (w : World) (schedule : list action)
    (now : string) (eco_files : list (option (list string)))
    (document : option checkpoint_data)
    (start_year start_month current_year current_month : Z)
    : Analyzer * option (gmap string (gmap string pyval)) :=
  let '(target_fens, stats0) := load_target_fens strip eco_files ∅ ∅ in
  let '(processed, stats1) := load_checkpoint document ∅ stats0 in
  let months :=
    generate_month_list start_year start_month current_year current_month in
  run_analysis read_game py_int target_fens w schedule now months processed stats1.
End WholeRun.

(** ** Vocabulary of the further statements *)

(** The units handed to [process_local_file], in the order of the trace. *)
Definition processed_units (tr : list event) : list string :=
  omap (fun e => match e with EvProcess month => Some month | _ => None end) tr.

(** The number of checkpoints saved. *)
Definition checkpoints_saved (tr : list event) : nat :=
  length (List.filter (fun e => match e with EvCheckpoint => true | _ => false end) tr).

(** The units of a list on which [process_local_file] returns [True]. *)
Definition successful_units (w : World) (units : list string) : list string :=
  filter (fun month => unit_ok w month = true) units.

(** What every state of a run satisfies. *)
Definition pipeline_invariant (read_game : string → result (option Game))
    (py_int : string → option Z) (target_fens : gset string) (w : World)
    (worklist : list string) (processed0 : gset string)
    (st0 : gmap string PopularityStats) (a : Analyzer) : Prop :=
  (length (download_queue a) ≤ queue_maxsize)%nat
  ∧ (processed_units (trace a) ++ download_queue a ++ months_left a)
      `sublist_of` worklist
  ∧ processed_months a
    = processed0 ∪ list_to_set (successful_units w (processed_units (trace a)))
  ∧ stats a
    = foldl (fun st month =>
               process_games read_game py_int target_fens (unit_games w month) st)
        st0 (processed_units (trace a))
  ∧ checkpoints_saved (trace a)
    = length (successful_units w (processed_units (trace a))).

(** A game cut down to the plies the replay looks at. *)
Definition truncate_game (g : Game) : Game :=
  mkGame (headers g) (take max_plies (mainline g)).

Definition cap_plies (read_game : string → result (option Game))
    (game_text : string) : result (option Game) :=
  match read_game game_text with
  | Ok (Some g) => Ok (Some (truncate_game g))
  | r => r
  end.





(** Two records that differ at most in the two score fields. *)
Definition same_but_scores (s s' : PopularityStats) : Prop :=
  frequency_count s' = frequency_count s ∧ white_wins s' = white_wins s
  ∧ black_wins s' = black_wins s ∧ draws s' = draws s
  ∧ games_analyzed s' = games_analyzed s ∧ avg_rating s' = avg_rating s
  ∧ analysis_date s' = analysis_date s.

(** The five steps of the confidence ladder. *)
Definition confidence_steps : list Q := [0%Q; (4 # 10)%Q; (6 # 10)%Q; (8 # 10)%Q; 1%Q].

(** The seconds a trace spends in [time.sleep]. *)
Definition seconds_slept (evs : list event) : Z :=
  foldr (fun e acc => match e with EvSleep s => s + acc | _ => acc end) 0 evs.

(** The fields of a record of the result document. *)
Definition result_fields : gset string :=
  {[ "popularity_score"; "frequency_count"; "white_wins"; "black_wins"; "draws";
     "games_analyzed"; "avg_rating"; "confidence_score"; "analysis_date";
     "white_win_rate"; "black_win_rate"; "draw_rate" ]}.

(** The month with the running number [k], counting [12 * year + month - 1]. *)
Definition nth_month (k : Z) : string := month_token (k `div` 12) (k `mod` 12 + 1).

(** The text of the chunks that decode, joined. *)
Definition decoded_text (cs : list (option string)) : string :=
  foldr (fun chunk text =>
           match chunk with Some c => c +:+ text | None => text end)
        EmptyString cs.

(** Try [k] is reached and ends well: no [PermissionError] before it
    where that is raised again. *)
Definition succeeds_at (windows : bool) (outcome : nat → try_outcome)
    (max_retries k : nat) : Prop :=
  (k < max_retries)%nat ∧ outcome k = TryDone
  ∧ (windows = false → ∀ j, (j < k)%nat → outcome j ≠ TryPermissionError).

(** Both file helpers run the same loop; what the loop guarantees. *)
Definition retry_contract
    (helper : bool → (nat → try_outcome) → nat → result bool * nat) : Prop :=
  ∀ (windows : bool) (outcome : nat → try_outcome) (max_retries : nat),
    ((helper windows outcome max_retries).2 ≤ max_retries)%nat
    ∧ (windows = true → ∃ b, (helper windows outcome max_retries).1 = Ok b)
    ∧ ((helper windows outcome max_retries).1 = Ok true
       ↔ ∃ k, succeeds_at windows outcome max_retries k).

(** The positions a checkpoint has a record for. *)
Definition checkpoint_keys (document : option checkpoint_data) : gset string :=
  match document with
  | None => ∅
  | Some cp => list_to_set (cp_stats cp).*1
  end.

(** No checkpoint to load, or one that [save_checkpoint] wrote. *)
Definition written (document : option checkpoint_data) : Prop :=
  document = None
  ∨ ∃ processed stats now, document = Some (checkpoint_of processed stats now).

(** ** Further example inputs *)

(** Two positions with games counted and one without. *)
Definition sample_counted : gmap string PopularityStats :=
  <["A" := mkStats 0 2 1 0 1 2 (Some (2975 # 2)) 0 ""]>
    (<["B" := mkStats 0 1 0 1 0 1 (Some (1810 # 1)) 0 ""]> (<["C" := zero_stats]> ∅)).

(** The thresholds of [sample_counted], and its records after the
    scoring pass. *)
Definition sample_thresholds : list Z := [1; 1; 1; 1; 1; 1; 1; 1; 1; 2].
Definition sample_scored : gmap string PopularityStats :=
  score_record sample_thresholds <$> sample_counted.

(** A world in which every download fails validation. *)
Definition sample_failing_world : World :=
  mkWorld (fun _ => NoCache) (fun _ _ => ValidationFailed) (fun _ => true)
          (fun _ => []) (fun _ => true).

(** A pipeline whose download worker has left its loop. *)
Definition sample_stopped : Analyzer :=
  mkAnalyzer [] ["2021-08"] true false ∅ sample_stats false [EvDownload "2021-08"; EvPut "2021-08"].

(** An archive of three games in three chunks, one chunk between them
    that does not decode. *)
Definition sample_blank (game_text : string) : bool :=
  bool_decide (game_text = EmptyString).
Definition sample_archive : archive :=
  mkArchive
    [ Some ("game 1" +:+ String line_feed (String line_feed EmptyString));
      None;
      Some (String line_feed "game 2" +:+ record_separator +:+ "game 3") ]
    false.

(** Two ECO files that can be read and one that cannot. *)
Definition sample_eco_files : list (option (list string)) :=
  [Some ["A"; ""; "B"]; None; Some ["B"]].


(** * Properties *)

(** ** Statistics Aggregator *)

Lemma nonneg_counts_lookup stats k r :
  nonneg_counts stats → stats !! k = Some r → 0 ≤ games_analyzed r.
Proof. intros H Hk. apply (H k r Hk). Qed.

Lemma update_record_ok rating res s :
  0 ≤ games_analyzed s → snd (update_record rating res s) = None.
Proof.
  intros H. unfold update_record. cbn.
  destruct (avg_rating s); [|done].
  destruct (Z.eqb_spec (games_analyzed s + 1) 0); [lia|done].
Qed.

Lemma games_analyzed_bump_result res s :
  games_analyzed (bump_result res s) = games_analyzed s.
Proof. unfold bump_result. repeat case_decide; done. Qed.

Lemma update_record_games rating res s :
  0 ≤ games_analyzed s →
  games_analyzed (fst (update_record rating res s)) = games_analyzed s + 1.
Proof.
  intros H. unfold update_record. cbn.
  destruct (avg_rating s); cbn.
  - destruct (Z.eqb_spec (games_analyzed s + 1) 0); [lia|]. cbn.
    by rewrite games_analyzed_bump_result.
  - by rewrite games_analyzed_bump_result.
Qed.

Lemma apply_updates_lookup ups : ∀ stats,
  nonneg_counts stats →
  snd (apply_updates ups stats) = None ∧
  nonneg_counts (fst (apply_updates ups stats)) ∧
  ∀ fen, fst (apply_updates ups stats) !! fen
         = record_after (updates_for fen ups) <$> stats !! fen.
Proof.
  induction ups as [|u rest IH]; intros stats Hnn; cbn.
  - split_and!; [done..|]. intros fen. by destruct (stats !! fen).
  - destruct (stats !! u_fen u) as [s|] eqn:Hs.
    + pose proof (nonneg_counts_lookup _ _ _ Hnn Hs) as Hs0.
      pose proof (update_record_ok (u_rating u) (u_result u) s Hs0) as Hok.
      pose proof (update_record_games (u_rating u) (u_result u) s Hs0) as Hg.
      destruct (update_record (u_rating u) (u_result u) s) as [s' o] eqn:Hup.
      cbn in Hok, Hg. subst o.
      assert (nonneg_counts (<[u_fen u:=s']> stats)) as Hnn'.
      { intros k r. rewrite lookup_insert. case_decide.
        - intros [= <-]. cbn. lia.
        - apply Hnn. }
      destruct (IH _ Hnn') as (H1 & H2 & H3). split_and!; [done..|].
      intros fen. rewrite H3. unfold updates_for. rewrite ?filter_cons.
      case_decide as Hd.
      * subst fen. rewrite lookup_insert_eq, Hs. cbn. by rewrite Hup.
      * rewrite lookup_insert_ne by done. done.
    + destruct (IH _ Hnn) as (H1 & H2 & H3). split_and!; [done..|].
      intros fen. rewrite H3. unfold updates_for. rewrite ?filter_cons.
      case_decide as Hd; [|done]. subst fen. by rewrite Hs.
Qed.

Lemma record_after_app ups1 ups2 s :
  record_after (ups1 ++ ups2) s = record_after ups2 (record_after ups1 s).
Proof. unfold record_after. by rewrite foldl_app. Qed.

Lemma updates_for_app fen ups1 ups2 :
  updates_for fen (ups1 ++ ups2) = updates_for fen ups1 ++ updates_for fen ups2.
Proof. unfold updates_for. by rewrite filter_app. Qed.

Lemma apply_batches_cons b rest stats :
  apply_batches (b :: rest) stats = apply_batches rest (fst (apply_updates b stats)).
Proof. done. Qed.

Lemma apply_batches_lookup batches : ∀ stats,
  nonneg_counts stats →
  nonneg_counts (apply_batches batches stats) ∧
  ∀ fen, apply_batches batches stats !! fen
         = record_after (updates_for fen (concat batches)) <$> stats !! fen.
Proof.
  induction batches as [|b rest IH]; intros stats Hnn.
  - split; [done|]. intros fen. cbn. by destruct (stats !! fen).
  - destruct (apply_updates_lookup b stats Hnn) as (_ & Hnn' & Hl).
    destruct (IH _ Hnn') as [H1 H2]. rewrite apply_batches_cons. split; [done|].
    intros fen. rewrite H2, Hl. change (concat (b :: rest)) with (b ++ concat rest).
    rewrite updates_for_app. destruct (stats !! fen); cbn; [|done]. by rewrite record_after_app.
Qed.

Lemma tracks_zero : tracks zero_stats [].
Proof. by repeat split. Qed.

Lemma Qsum_snoc l r : (Qsum (l ++ [r]) == Qsum l + r)%Q.
Proof.
  unfold Qsum. induction l as [|x l IH]; cbn [foldr app].
  - ring.
  - rewrite IH. ring.
Qed.

Lemma count_result_snoc token ups u :
  count_result token (ups ++ [u])
  = count_result token ups + (if decide (u_result u = token) then 1 else 0).
Proof.
  unfold count_result. rewrite filter_app, length_app, Nat2Z.inj_add. f_equal.
  rewrite filter_cons, filter_nil. by case_decide.
Qed.

Lemma inject_Z_nonzero n : n ≠ 0 → ¬ (inject_Z n == 0)%Q.
Proof. intros Hn Heq. apply Hn. unfold Qeq in Heq. cbn in Heq. lia. Qed.

Lemma running_average_mean a r l :
  l ≠ [] →
  (a == Qsum l / inject_Z (Z.of_nat (length l)))%Q →
  (running_average a r (Z.of_nat (length l) + 1)
   == Qsum (l ++ [r]) / inject_Z (Z.of_nat (length (l ++ [r]))))%Q.
Proof.
  intros Hl Ha. unfold running_average.
  rewrite Qsum_snoc, length_app, Nat2Z.inj_add.
  change (Z.of_nat (length [r])) with 1.
  replace (Z.of_nat (length l) + 1 - 1) with (Z.of_nat (length l)) by lia.
  assert (Z.of_nat (length l) ≠ 0) as Hn by (destruct l; [done|cbn; lia]).
  assert (¬ (inject_Z (Z.of_nat (length l) + 1) == 0)%Q) as Hn1
    by (apply inject_Z_nonzero; lia).
  pose proof (inject_Z_nonzero _ Hn) as Hn0.
  rewrite inject_Z_plus in *. change (inject_Z 1) with 1%Q in *.
  rewrite Ha. generalize dependent (inject_Z (Z.of_nat (length l))).
  intros N _ HN1 HN0. field. split; assumption.
Qed.

Lemma bump_result_fields res s :
  let s' := bump_result res s in
  games_analyzed s' = games_analyzed s ∧
  frequency_count s' = frequency_count s ∧
  avg_rating s' = avg_rating s ∧
  white_wins s' = white_wins s + (if decide (res = "1-0") then 1 else 0) ∧
  black_wins s' = black_wins s + (if decide (res = "0-1") then 1 else 0) ∧
  draws s' = draws s + (if decide (res = "1/2-1/2") then 1 else 0).
Proof.
  unfold bump_result. repeat case_decide; subst; cbn; repeat split; try lia; done.
Qed.

Lemma tracks_step s ups u :
  tracks s ups →
  tracks (fst (update_record (u_rating u) (u_result u) s)) (ups ++ [u]).
Proof.
  intros (Hg & Hf & Hw & Hb & Hd & Hm).
  unfold tracks. rewrite !count_result_snoc, length_app, Nat2Z.inj_add, fmap_app.
  change (Z.of_nat (length [u])) with 1. cbn [fmap list_fmap].
  unfold update_record. cbn [avg_rating games_analyzed bump_counts].
  destruct (avg_rating s) as [a|] eqn:Ha.
  - destruct (Z.eqb_spec (games_analyzed s + 1) 0) as [|_]; [lia|].
    cbn [fst].
    match goal with |- context [bump_result ?r ?x] =>
      destruct (bump_result_fields r x) as (-> & -> & -> & -> & -> & ->) end.
    cbn. rewrite Hg, Hf, Hw, Hb, Hd. split_and!; try done.
    destruct (u_rating <$> ups) as [|x l] eqn:Hl; [done|].
    assert (length ups = length (x :: l)) as -> by (by rewrite <- Hl, length_fmap).
    change (running_average a (u_rating u) (Z.of_nat (length (x :: l)) + 1)
            == Qsum ((x :: l) ++ [u_rating u])
               / inject_Z (Z.of_nat (length ((x :: l) ++ [u_rating u]))))%Q.
    by apply running_average_mean.
  - cbn [fst].
    match goal with |- context [bump_result ?r ?x] =>
      destruct (bump_result_fields r x) as (-> & -> & -> & -> & -> & ->) end.
    cbn. rewrite Hg, Hf, Hw, Hb, Hd. split_and!; try done.
    destruct (u_rating <$> ups) as [|x l] eqn:Hl; [|done].
    cbn. unfold Qsum. cbn. field.
Qed.

Lemma tracks_after ups : ∀ s ups0,
  tracks s ups0 → tracks (record_after ups s) (ups0 ++ ups).
Proof.
  induction ups as [|u ups IH]; intros s ups0 H.
  - by rewrite app_nil_r.
  - replace (ups0 ++ u :: ups) with ((ups0 ++ [u]) ++ ups) by (by rewrite <- app_assoc).
    apply IH. by apply tracks_step.
Qed.

Lemma nonneg_of_zero (stats : gmap string PopularityStats) :
  (∀ k r, stats !! k = Some r → r = zero_stats) → nonneg_counts stats.
Proof. intros H k r Hr. by rewrite (H k r Hr). Qed.

Lemma count_results_le ups :
  count_result "1-0" ups + count_result "0-1" ups + count_result "1/2-1/2" ups
  ≤ Z.of_nat (length ups).
Proof.
  induction ups as [|u ups IH] using rev_ind.
  - done.
  - rewrite !count_result_snoc, length_app, Nat2Z.inj_add.
    change (Z.of_nat (length [u])) with 1.
    repeat case_decide; try lia; congruence.
Qed.

Lemma Qsum_Permutation l l' : l ≡ₚ l' → (Qsum l == Qsum l')%Q.
Proof.
  unfold Qsum. induction 1 as [|x l l' _ IH|x y l|l l' l'' _ IH1 _ IH2]; cbn.
  - reflexivity.
  - by rewrite IH.
  - ring.
  - by rewrite IH1.
Qed.

Lemma is_mean_of_Permutation avg l l' :
  l ≡ₚ l' → is_mean_of avg l → is_mean_of avg l'.
Proof.
  intros Hp. pose proof (Permutation_length Hp) as Hlen.
  pose proof (Qsum_Permutation _ _ Hp) as Hsum.
  destruct avg as [a|], l as [|x l], l' as [|x' l']; try done.
  unfold is_mean_of. intros ->. by rewrite Hsum, Hlen.
Qed.

Lemma record_from_zero batches stats fen :
  stats !! fen = Some zero_stats → nonneg_counts stats →
  ∃ s, apply_batches batches stats !! fen = Some s ∧
       tracks s (updates_for fen (concat batches)).
Proof.
  intros Hz Hnn. destruct (apply_batches_lookup batches stats Hnn) as [_ Hl].
  eexists. split.
  - rewrite Hl, Hz. done.
  - apply (tracks_after _ zero_stats []), tracks_zero.
Qed.

(** C1: for updates applied through the batched update to a map whose
    record for [fen] is zero-valued, the resulting [avg_rating] of [fen]
    is the arithmetic mean of the ratings applied for [fen] (in exact
    arithmetic), and it is that same mean for any other grouping into
    batches and any other order of the same updates. *)
Theorem avg_rating_is_arithmetic_mean
    (batches batches' : list (list update))
    (stats : gmap string PopularityStats) (fen : string) :
  stats !! fen = Some zero_stats →
  nonneg_counts stats →
  concat batches ≡ₚ concat batches' →
  ∃ s s',
    apply_batches batches stats !! fen = Some s ∧
    apply_batches batches' stats !! fen = Some s' ∧
    is_mean_of (avg_rating s) (ratings_for fen (concat batches)) ∧
    is_mean_of (avg_rating s') (ratings_for fen (concat batches)).
Proof.
  intros Hz Hnn Hp.
  destruct (record_from_zero batches stats fen Hz Hnn) as (s & Hs & Ht).
  destruct (record_from_zero batches' stats fen Hz Hnn) as (s' & Hs' & Ht').
  exists s, s'. split_and!; [done..| |].
  - apply Ht.
  - apply (is_mean_of_Permutation _ (ratings_for fen (concat batches'))).
    + unfold ratings_for, updates_for. by rewrite Hp.
    + apply Ht'.
Qed.

Lemma avg_rating_is_arithmetic_mean_witness :
  ∃ s s',
    apply_batches sample_batches sample_stats !! "A" = Some s ∧
    apply_batches sample_regrouped sample_stats !! "A" = Some s' ∧
    is_mean_of (avg_rating s) (ratings_for "A" (concat sample_batches)) ∧
    is_mean_of (avg_rating s') (ratings_for "A" (concat sample_batches)).
Proof.
  apply (avg_rating_is_arithmetic_mean sample_batches sample_regrouped sample_stats "A").
  - reflexivity.
  - unfold nonneg_counts. apply (bool_decide_unpack _). vm_compute. exact I.
  - change (concat sample_regrouped) with (rev (concat sample_batches)).
    apply Permutation_rev.
Defined.

(** C5: starting from a zero-valued record, after any sequence of
    batches [frequency_count] equals [games_analyzed] and the three
    result buckets add up to at most [games_analyzed]: every update
    applied for the key counts once in both counters, and counts in the
    one bucket whose token it carries, in none when it carries no
    token. *)
Theorem aggregator_count_invariants
    (batches : list (list update)) (stats : gmap string PopularityStats)
    (fen : string) :
  stats !! fen = Some zero_stats →
  nonneg_counts stats →
  ∃ s, apply_batches batches stats !! fen = Some s ∧
    let applied := updates_for fen (concat batches) in
    games_analyzed s = Z.of_nat (length applied) ∧
    frequency_count s = games_analyzed s ∧
    white_wins s = count_result "1-0" applied ∧
    black_wins s = count_result "0-1" applied ∧
    draws s = count_result "1/2-1/2" applied ∧
    white_wins s + black_wins s + draws s ≤ games_analyzed s.
Proof.
  intros Hz Hnn.
  destruct (record_from_zero batches stats fen Hz Hnn)
    as (s & Hs & Hg & Hf & Hw & Hb & Hd & _).
  exists s. split; [done|]. cbn zeta. rewrite Hg, Hf, Hw, Hb, Hd.
  split_and!; try done. apply count_results_le.
Qed.

Lemma aggregator_count_invariants_witness :
  ∃ s, apply_batches sample_batches sample_stats !! "A" = Some s ∧
    let applied := updates_for "A" (concat sample_batches) in
    games_analyzed s = Z.of_nat (length applied) ∧
    frequency_count s = games_analyzed s ∧
    white_wins s = count_result "1-0" applied ∧
    black_wins s = count_result "0-1" applied ∧
    draws s = count_result "1/2-1/2" applied ∧
    white_wins s + black_wins s + draws s ≤ games_analyzed s.
Proof.
  apply (aggregator_count_invariants sample_batches sample_stats "A").
  - reflexivity.
  - unfold nonneg_counts. apply (bool_decide_unpack _). vm_compute. exact I.
Defined.


(** ** Game Parser *)

Section GameParserFacts.
Variable read_game : string → result (option Game).
Variable py_int : string → option Z.
Variable target_fens : gset string.

Lemma process_game_returns text stats :
  snd (process_game read_game py_int target_fens text stats) = Ok tt.
Proof.
  unfold process_game.
  destruct (process_game_body read_game py_int target_fens text stats) as [st [[]|e]];
    reflexivity.
Qed.

Lemma process_game_of_body text stats :
  fst (process_game read_game py_int target_fens text stats)
  = fst (process_game_body read_game py_int target_fens text stats).
Proof.
  unfold process_game.
  destruct (process_game_body read_game py_int target_fens text stats) as [st [[]|e]];
    reflexivity.
Qed.

Lemma safe_int_missing_or_zero g key :
  py_int "0" = Some 0 →
  rating_missing_or_zero py_int g key →
  _safe_int py_int (headers_get g key "0") = 0.
Proof.
  unfold rating_missing_or_zero, headers_get, _safe_int.
  intros H0 H. destruct (headers g !! key); [by rewrite H | by rewrite H0].
Qed.

Lemma safe_int_not_numeric g key :
  rating_not_numeric py_int g key →
  _safe_int py_int (headers_get g key "0") = 0.
Proof.
  unfold headers_get, _safe_int. intros (v & -> & ->). done.
Qed.

Lemma collect_updates_none avg res plies : ∀ move_count,
  (∀ fen, Ok fen ∈ take (max_plies - move_count) plies → fen ∉ target_fens) →
  match collect_updates target_fens avg res plies move_count with
  | Ok ups => ups = []
  | Raise _ => True
  end.
Proof.
  induction plies as [|ply rest IH]; intros k H; cbn [collect_updates]; [done|].
  destruct (Nat.leb_spec max_plies k) as [|Hlt]; [done|].
  destruct ply as [fen|e]; [|done].
  assert (max_plies - k = S (max_plies - S k))%nat as Hk by lia.
  rewrite Hk in H. cbn [take] in H.
  specialize (IH (S k)).
  destruct (collect_updates target_fens avg res rest (S k)) as [ups|e]; [|done].
  rewrite IH by (intros f Hf; apply H; by right).
  case_decide as Hin; [|done]. exfalso. apply (H fen); [by left|done].
Qed.
(** C7: a game record in which a player rating header is missing or
    equal to zero is discarded as a whole: [process_game] returns and
    leaves the statistics map exactly as it was. *)
Theorem ratingless_game_discarded (game_text : string) (game : Game)
    (stats : gmap string PopularityStats) :
  py_int "0" = Some 0 →
  read_game game_text = Ok (Some game) →
  rating_missing_or_zero py_int game "WhiteElo"
  ∨ rating_missing_or_zero py_int game "BlackElo" →
  process_game read_game py_int target_fens game_text stats = (stats, Ok tt).
Proof.
  intros H0 Hread Hrating.
  unfold process_game, process_game_body. rewrite Hread.
  destruct Hrating as [H|H];
    rewrite (safe_int_missing_or_zero _ _ H0 H); cbn [Z.eqb orb].
  - reflexivity.
  - rewrite orb_true_r. reflexivity.
Qed.

(** C10: [process_game] returns normally on every input string, and on
    an unusable record (one that does not parse, whose rating header is
    not a number, or that reaches no tracked position) it leaves the
    statistics map exactly as it was. *)
Theorem process_game_total (game_text : string)
    (stats : gmap string PopularityStats) :
  snd (process_game read_game py_int target_fens game_text stats) = Ok tt ∧
  (unusable read_game py_int target_fens game_text →
   fst (process_game read_game py_int target_fens game_text stats) = stats).
Proof.
  split; [apply process_game_returns|].
  rewrite process_game_of_body. unfold unusable, process_game_body.
  destruct (read_game game_text) as [[g|]|e]; [|done..].
  intros [H|[H|H]].
  - rewrite (safe_int_not_numeric _ _ H). done.
  - rewrite (safe_int_not_numeric _ _ H), orb_true_r. done.
  - destruct (_ || _); [done|].
    set (avg := (inject_Z _ / 2)%Q).
    pose proof (collect_updates_none avg (headers_get g "Result" "*")
                  (mainline g) 0%nat) as Hc.
    destruct (collect_updates _ _ _ _ _) as [ups|e]; [|done].
    rewrite Hc; [done|].
    intros fen Hin. apply H. unfold positions_reached.
    apply list_elem_of_omap. exists (Ok fen). split; [|done].
    by rewrite Nat.sub_0_r in Hin.
Qed.
End GameParserFacts.

Lemma ratingless_game_discarded_witness :
  process_game sample_read_game decimal_int sample_target_fens "unrated" sample_stats
  = (sample_stats, Ok tt).
Proof.
  apply (ratingless_game_discarded sample_read_game decimal_int sample_target_fens
           "unrated" (sample_game "1500" "0" "1-0" ["start"; "A"])).
  - reflexivity.
  - reflexivity.
  - right. reflexivity.
Defined.

Lemma process_game_total_witness :
  snd (process_game sample_read_game decimal_int sample_target_fens "anonymous" sample_stats)
  = Ok tt ∧
  fst (process_game sample_read_game decimal_int sample_target_fens "anonymous" sample_stats)
  = sample_stats.
Proof.
  destruct (process_game_total sample_read_game decimal_int sample_target_fens
              "anonymous" sample_stats) as [Hret Hsame].
  split; [exact Hret|]. apply Hsame.
  left. exists "?". split; reflexivity.
Defined.


(** ** Popularity Scorer *)

Lemma scan_thresholds_ge games ths : ∀ score, score ≤ scan_thresholds games ths score.
Proof.
  induction ths as [|t ths IH]; intros score; cbn; [lia|].
  destruct (games <=? t); [lia|]. specialize (IH (score + 1)). lia.
Qed.

Lemma scan_thresholds_mono g g' ths : g ≤ g' →
  ∀ score, scan_thresholds g ths score ≤ scan_thresholds g' ths score.
Proof.
  intros Hle. induction ths as [|t ths IH]; intros score; cbn; [lia|].
  destruct (Z.leb_spec g t), (Z.leb_spec g' t); try lia.
  - pose proof (scan_thresholds_ge g' ths (score + 1)). lia.
  - apply IH.
Qed.

(** Against thresholds in ascending order the scan counts the
    thresholds strictly below the count: a count equal to a threshold
    stops there and takes the lower score. *)
Lemma scan_thresholds_counts games ths : ∀ score,
  StronglySorted Z.le ths →
  scan_thresholds games ths score
  = score + Z.of_nat (length (filter (fun t => t < games) ths)).
Proof.
  induction ths as [|t ths IH]; intros score Hs; cbn [scan_thresholds].
  - cbn. lia.
  - apply StronglySorted_inv in Hs as [Hs Hall].
    rewrite filter_cons. destruct (Z.leb_spec games t) as [Hle|Hgt].
    + case_decide; [lia|].
      assert (filter (fun t0 => t0 < games) ths = []) as ->; [|cbn; lia].
      clear -Hall Hle. induction Hall as [|x l Hx _ IHl]; [done|].
      rewrite filter_cons. case_decide; [lia|exact IHl].
    + case_decide; [|lia]. rewrite IH by done. cbn [length]. lia.
Qed.

(** X25: the score the early-exit scan over the thresholds gives a position
    with games is, when the thresholds are in ascending order, one more
    than the number of thresholds strictly below its count, capped at
    ten; a position with no game gets 0. *)
Lemma score_record_spec ths r :
  StronglySorted Z.le ths →
  popularity_score (score_record ths r)
  = if games_analyzed r =? 0 then 0 else spec_score (games_analyzed r) ths.
Proof.
  intros Hs. unfold score_record, spec_score.
  destruct (games_analyzed r =? 0); [done|]. cbn.
  by rewrite scan_thresholds_counts.
Qed.

Lemma score_record_games ths r : games_analyzed (score_record ths r) = games_analyzed r.
Proof. unfold score_record. by destruct (games_analyzed r =? 0). Qed.

Lemma score_record_mono ths ra rb :
  0 < games_analyzed rb → games_analyzed ra ≤ games_analyzed rb →
  popularity_score (score_record ths ra) ≤ popularity_score (score_record ths rb)
  ∧ (games_analyzed ra = 0 →
     popularity_score (score_record ths ra) = 0
     ∧ 1 ≤ popularity_score (score_record ths rb)).
Proof.
  intros Hb Hab. unfold score_record.
  destruct (Z.eqb_spec (games_analyzed rb) 0) as [|_]; [lia|].
  pose proof (scan_thresholds_ge (games_analyzed rb) ths 1).
  pose proof (scan_thresholds_ge (games_analyzed ra) ths 1).
  pose proof (scan_thresholds_mono _ _ ths Hab 1).
  destruct (Z.eqb_spec (games_analyzed ra) 0); cbn; lia.
Qed.

Lemma positive_counts_elem (stats : gmap string PopularityStats) k r :
  stats !! k = Some r → 0 < games_analyzed r →
  games_analyzed r ∈ positive_counts stats.
Proof.
  intros Hk Hpos. unfold positive_counts.
  apply list_elem_of_filter. split; [done|].
  apply list_elem_of_fmap. exists r. split; [done|].
  apply list_elem_of_fmap. exists (k, r). split; [done|].
  by apply elem_of_map_to_list.
Qed.

(** What the scoring pass returns is the map with every record scored
    against one list of thresholds, whenever some count is positive. *)
Lemma calculate_popularity_scores_Ok stats stats' :
  calculate_popularity_scores stats = Ok stats' →
  (positive_counts stats = [] ∧ stats' = stats) ∨
  (positive_counts stats ≠ [] ∧
   ∃ ths, percentile_thresholds (merge_sort Z.le (positive_counts stats)) = Ok ths
          ∧ stats' = score_record ths <$> stats).
Proof.
  unfold calculate_popularity_scores.
  destruct (positive_counts stats) as [|c cs] eqn:Hc.
  - intros [= <-]. by left.
  - destruct (percentile_thresholds _) as [ths|e]; [|done].
    intros [= <-]. right. split; [done|]. by exists ths.
Qed.

Lemma scored_map_monotone stats stats' :
  calculate_popularity_scores stats = Ok stats' → score_monotone stats'.
Proof.
  intros Hcalc a b sa sb Ha Hb Hpos Hle.
  destruct (calculate_popularity_scores_Ok _ _ Hcalc) as [[Hnil ->]|(_ & ths & _ & ->)].
  - pose proof (positive_counts_elem _ _ _ Hb Hpos) as Hin.
    rewrite Hnil in Hin. by apply elem_of_nil in Hin.
  - rewrite lookup_fmap in Ha, Hb.
    destruct (stats !! a) as [ra|]; [|done]. destruct (stats !! b) as [rb|]; [|done].
    cbn in Ha, Hb. injection Ha as <-. injection Hb as <-.
    rewrite !score_record_games in *. by apply score_record_mono.
Qed.

Lemma indices_in_range_upto_spec fuel : ∀ n,
  indices_in_range_upto fuel n = true →
  ∀ m i, n ≤ m < n + Z.of_nat fuel → i ∈ seqZ 1 10 → index_in_range m i = true.
Proof.
  induction fuel as [|fuel IH]; intros n H m i Hm Hi; [lia|].
  cbn [indices_in_range_upto] in H. apply andb_prop in H as [Hn Hrest].
  destruct (decide (m = n)) as [->|Hne].
  - rewrite forallb_forall in Hn. apply Hn. by apply list_elem_of_In.
  - apply (IH (n + 1)); [done|lia|done].
Qed.

Lemma checked_sizes_in_range :
  indices_in_range_upto (Z.to_nat checked_sizes) 1 = true.
Proof. vm_cast_no_check (eq_refl true). Qed.

Lemma thresholds_for_returns game_counts : ∀ deciles,
  (∀ i, i ∈ deciles → index_in_range (Z.of_nat (length game_counts)) i = true) →
  ∃ ths, thresholds_for deciles game_counts = Ok ths.
Proof.
  induction deciles as [|i rest IH]; intros H; cbn [thresholds_for]; [by eexists|].
  pose proof (H i ltac:(left)) as Hi. unfold index_in_range in Hi.
  destruct (decile_index i _) as [k|e]; [|done].
  apply andb_prop in Hi as [Hk0%Z.leb_le Hkn%Z.ltb_lt].
  unfold list_index.
  destruct (lookup_lt_is_Some_2 game_counts (Z.to_nat k) ltac:(lia)) as [t ->].
  destruct IH as [ths ->]; [|by eexists].
  intros j Hj. apply H. by right.
Qed.

Lemma positive_counts_length (stats : gmap string PopularityStats) :
  (length (positive_counts stats) ≤ size stats)%nat.
Proof.
  unfold positive_counts.
  etrans; [apply length_filter|]. by rewrite !length_fmap, length_map_to_list.
Qed.

Lemma scoring_pass_returns stats :
  Z.of_nat (size stats) ≤ checked_sizes →
  ∃ stats', calculate_popularity_scores stats = Ok stats'.
Proof.
  intros Hsize. unfold calculate_popularity_scores.
  pose proof (positive_counts_length stats) as Hlen.
  destruct (positive_counts stats) as [|c cs] eqn:Hc; [by eexists|].
  destruct (thresholds_for_returns (merge_sort Z.le (c :: cs)) (seqZ 1 10)) as [ths Hths].
  - intros i Hi.
    apply (indices_in_range_upto_spec _ _ checked_sizes_in_range); [|done].
    rewrite (Permutation_length (merge_sort_Permutation Z.le (c :: cs))).
    cbn [length] in *. unfold checked_sizes in *. lia.
  - unfold percentile_thresholds. rewrite Hths. by eexists.
Qed.

(** C6: after the scoring pass [popularity_score] is non-decreasing in
    [games_analyzed]: of two keys, the second with a positive count, the
    one with the smaller count has the smaller or equal score, and a key
    with no games has score 0, below the score of any key with games.
    The pass does return a scored map for every map of at most
    [checked_sizes] positions. *)
Theorem popularity_score_monotone (stats : gmap string PopularityStats) :
  (∀ stats', calculate_popularity_scores stats = Ok stats' → score_monotone stats')
  ∧ (Z.of_nat (size stats) ≤ checked_sizes →
     ∃ stats', calculate_popularity_scores stats = Ok stats').
Proof.
  split.
  - intros stats'. apply scored_map_monotone.
  - apply scoring_pass_returns.
Qed.

Lemma popularity_score_monotone_witness :
  ∃ stats', calculate_popularity_scores ninety_positions = Ok stats'
            ∧ score_monotone stats'.
Proof.
  destruct (popularity_score_monotone ninety_positions) as [Hmono Hret].
  destruct Hret as [stats' Hs].
  - vm_compute.
    discriminate.
  - exists stats'.
    split; [exact Hs|].
    apply Hmono, Hs.
Defined.

(** C3, on the code: with ninety positions of positive count the
    seventh decile index is computed as [int(0.7 * 90) - 1 = 61], since
    the binary64 product is just below 63, where the exact formula gives
    62. The seventh threshold is 62 instead of 63, and the position with
    63 games is scored 8 where the specified rule scores it 7. *)
Theorem decile_index_rounding_slip :
  let sorted := merge_sort Z.le (positive_counts ninety_positions) in
  sorted = seqZ 1 90
  ∧ decile_index 7 90 = Ok 61
  ∧ spec_decile_index 7 90 = 62
  ∧ percentile_thresholds sorted = Ok [9; 18; 27; 36; 45; 54; 62; 72; 81; 90]
  ∧ spec_thresholds sorted = [9; 18; 27; 36; 45; 54; 63; 72; 81; 90]
  ∧ scored_popularity ninety_positions "position 63" = Some 8
  ∧ spec_score 63 (spec_thresholds sorted) = 7.
Proof.
  cbn zeta.
  split_and!; vm_compute; reflexivity.
Qed.


(** ** Result document *)

Lemma final_stats_dict_rates s :
  let d := final_stats_dict s in
  (0 < games_analyzed s → rates_of s d)
  ∧ (games_analyzed s ≤ 0 → rate_fields d (Some PNone) (Some PNone) (Some PNone)).
Proof.
  unfold final_stats_dict, rates_of, rate_fields. cbn zeta.
  destruct (Z.ltb_spec 0 (games_analyzed s)); (split; [intros ?|intros ?]); try lia;
    split_and!;
    repeat (rewrite lookup_insert_ne by done); by rewrite lookup_insert_eq.
Qed.

Lemma final_data_lookup now (stats : gmap string PopularityStats) fen s :
  stats !! fen = Some s →
  (save_final_results now stats).2 !! fen
  = Some (final_stats_dict (set_analysis_date now s)).
Proof. intros H. cbn. by rewrite !lookup_fmap, H. Qed.

(** C9, amended: in the result document the record of a key with
    [games_analyzed > 0] holds the three rates [bucket / games_analyzed],
    and the record of a key with [games_analyzed = 0] holds the three
    rate fields as well, each with the value [None]. *)
Theorem result_document_rates (now : string)
    (stats : gmap string PopularityStats) (fen : string) (s : PopularityStats) :
  stats !! fen = Some s →
  ∃ d, (save_final_results now stats).2 !! fen = Some d
     ∧ (0 < games_analyzed s → rates_of s d)
     ∧ (games_analyzed s = 0 →
        rate_fields d (Some PNone) (Some PNone) (Some PNone)).
Proof.
  intros H. eexists. split; [by apply final_data_lookup|].
  destruct (final_stats_dict_rates (set_analysis_date now s)) as [Hpos Hzero].
  split.
  - apply Hpos.
  - intros Hz. apply Hzero. cbn. lia.
Qed.

Lemma result_document_rates_witness :
  ∃ d, (save_final_results sample_now sample_stats).2 !! "A" = Some d
     ∧ (0 < games_analyzed zero_stats → rates_of zero_stats d)
     ∧ (games_analyzed zero_stats = 0 →
        rate_fields d (Some PNone) (Some PNone) (Some PNone)).
Proof.
  apply (result_document_rates sample_now sample_stats "A" zero_stats).
  reflexivity.
Defined.

Lemma rate_fields_present_when_zero : ¬ spec_rate_fields sample_now sample_stats.
Proof.
  intros H.
  destruct (H "A" zero_stats _ eq_refl eq_refl) as [_ Habsent].
  destruct (Habsent eq_refl) as [Hw _]. vm_compute in Hw. discriminate.
Qed.


(** ** Checkpoint Store and Download Manager *)






(** C4, on the code: a save opens the checkpoint file itself for
    writing and writes the chunks into it; there is no temporary file
    and no rename. A crash after the first operation leaves an empty
    checkpoint, a crash after the second leaves the first chunk only,
    and the previous checkpoint is gone in both cases. *)
Theorem checkpoint_overwritten_in_place :
  let ops := save_checkpoint sample_checkpoint_file sample_chunks in
  existsb is_rename ops = false
  ∧ Forall (fun op => ¬ leaves_alone sample_checkpoint_file op) ops
  ∧ crash_after 1 ops sample_fs !! sample_checkpoint_file = Some ""
  ∧ crash_after 2 ops sample_fs !! sample_checkpoint_file = Some "{"
  ∧ crash_after (length ops) ops sample_fs !! sample_checkpoint_file
    = Some (document sample_chunks).
Proof.
  cbn zeta. split_and!; try (vm_compute; reflexivity).
  repeat constructor; cbn; intros H; by apply H.
Qed.

(** In general: the first operation of a save empties the previous
    checkpoint, and no operation of a save is a rename. *)
Lemma save_checkpoint_truncates_first checkpoint_file chunks fs :
  existsb is_rename (save_checkpoint checkpoint_file chunks) = false
  ∧ crash_after 1 (save_checkpoint checkpoint_file chunks) fs !! checkpoint_file
    = Some "".
Proof.
  split.
  - unfold save_checkpoint. cbn. induction chunks as [|c cs IH]; [done|]. by cbn.
  - unfold crash_after, save_checkpoint. cbn [take foldl apply_op].
    apply lookup_insert_eq.
Qed.

Lemma retry_loop_attempts outcome max_retries remaining : ∀ attempt,
  (attempts (retry_loop outcome max_retries attempt remaining).2 ≤ remaining)%nat.
Proof.
  unfold attempts.
  induction remaining as [|remaining IH]; intros attempt; cbn [retry_loop]; [done|].
  specialize (IH (S attempt)).
  destruct (outcome attempt); [destruct (attempt <? max_retries - 1)%nat|..];
    try destruct (retry_loop _ _ _ _) as [ok evs]; cbn in *; lia.
Qed.

(** X27: at most [max_retries] attempts, whatever the outcomes. *)
Lemma download_attempts_bounded outcome max_retries :
  (attempts (download_file_with_retry outcome max_retries).2 ≤ max_retries)%nat.
Proof. apply retry_loop_attempts. Qed.

(** C8, on the code: when the downloaded file fails validation the
    next attempt starts at once, with no wait between the attempts; the
    30 second wait only follows an attempt that raised. *)
Theorem retry_without_backoff_after_validation_failure :
  download_file_with_retry (fun _ => ValidationFailed) 3
  = (false, [EvAttempt 1; EvAttempt 2; EvAttempt 3])
  ∧ download_file_with_retry (fun _ => RequestFailed) 3
    = (false, [EvAttempt 1; EvSleep 30; EvAttempt 2; EvSleep 30; EvAttempt 3]).
Proof. split; reflexivity. Qed.


(** ** After a failed download *)

Lemma download_events_app evs1 evs2 :
  download_events (evs1 ++ evs2) = download_events evs1 ++ download_events evs2.
Proof. apply List.filter_app. Qed.

(** X28: when every attempt for a unit fails, the iteration sets the shutdown
    signal and leaves the loop. *)
Lemma failed_download_stops_worker w a month rest :
  download_complete a = false →
  months_left a = month :: rest →
  shutdown_requested a = false →
  month ∉ processed_months a →
  cached w month ≠ ValidCache →
  (download_file_with_retry (attempt_result w month) 3).1 = false →
  ∃ a', download_worker_step w a = Some a'
        ∧ shutdown_requested a' = true
        ∧ months_left a' = []
        ∧ download_complete a' = true
        ∧ download_queue a' = download_queue a.
Proof.
  intros Hc Hm Hs Hp Hcache Hfail. unfold download_worker_step.
  rewrite Hc, Hm, Hs. case_decide; [done|].
  destruct (download_file_with_retry _ _) as [ok evs]. cbn in Hfail. subst ok.
  destruct (cached w month); [|done|]; eexists; (split; [reflexivity|]); cbn;
    by rewrite orb_true_r.
Qed.

Section AfterShutdown.
Variable read_game : string → result (option Game).
Variable py_int : string → option Z.
Variable target_fens : gset string.

Lemma step_after_download_complete w a act :
  download_complete a = true →
  let a' := step read_game py_int target_fens w a act in
  download_complete a' = true
  ∧ download_events (trace a') = download_events (trace a)
  ∧ (length (download_queue a') ≤ length (download_queue a))%nat.
Proof.
  intros Hc. destruct act; cbn.
  - unfold download_worker_step. rewrite Hc. done.
  - unfold process_worker_step.
    destruct (process_worker_done a); [done|].
    destruct (download_queue a) as [|month rest].
    + rewrite Hc. cbn. done.
    + destruct (unit_ok w month); cbn; rewrite download_events_app; cbn;
        rewrite app_nil_r; split_and!; try done; lia.
  - rewrite download_events_app. cbn. rewrite app_nil_r. done.
Qed.

(** X29: once the download worker has left its loop, no schedule makes it
    download or publish anything more. *)
Lemma no_download_after_loop_left w schedule : ∀ a,
  download_complete a = true →
  download_events (trace (run_workers read_game py_int target_fens w schedule a))
  = download_events (trace a).
Proof.
  induction schedule as [|act schedule IH]; intros a Hc; [done|].
  destruct (step_after_download_complete w a act Hc) as (Hc' & Hev & _).
  unfold run_workers in *. cbn [foldl]. rewrite IH by done. done.
Qed.
End AfterShutdown.


(** ** Completed units *)

Lemma retry_loop_events outcome max_retries remaining U : ∀ attempt,
  Forall (fun e => ¬ concerns U e) (retry_loop outcome max_retries attempt remaining).2.
Proof.
  induction remaining as [|remaining IH]; intros attempt; cbn [retry_loop]; [by constructor|].
  specialize (IH (S attempt)).
  destruct (outcome attempt); [destruct (attempt <? max_retries - 1)%nat|..];
    try destruct (retry_loop _ _ _ _) as [ok evs]; cbn in *;
    repeat (constructor; [intros [?|[?|?]]; discriminate|]); done.
Qed.

Lemma put_and_continue_untouched U month rest before after a a' :
  month ≠ U →
  Forall (fun e => ¬ concerns U e) before →
  Forall (fun e => ¬ concerns U e) after →
  untouched U a →
  put_and_continue month rest before after a = Some a' →
  untouched U a'.
Proof.
  intros Hne Hb Ha (Hp & Hq & Ht). unfold put_and_continue.
  destruct (_ <? _)%nat; [|done]. intros [= <-]. split_and!; cbn.
  - done.
  - rewrite elem_of_app, list_elem_of_singleton. intros [?|?]; [done|congruence].
  - rewrite !Forall_app, Forall_cons. split_and!; try done.
    intros [?|[?|?]]; congruence.
Qed.

Lemma leave_download_loop_untouched U shutdown evs a :
  Forall (fun e => ¬ concerns U e) evs →
  untouched U a → untouched U (leave_download_loop shutdown evs a).
Proof.
  intros He (Hp & Hq & Ht). split_and!; cbn; [done..|].
  rewrite Forall_app. by split.
Qed.

Lemma download_worker_step_untouched U w a a' :
  untouched U a → download_worker_step w a = Some a' → untouched U a'.
Proof.
  intros Hu. unfold download_worker_step.
  destruct (download_complete a); [done|].
  destruct (months_left a) as [|month rest].
  { intros [= <-]. apply leave_download_loop_untouched; [constructor|done]. }
  destruct (shutdown_requested a).
  { intros [= <-]. apply leave_download_loop_untouched; [constructor|done]. }
  case_decide as Hin.
  { intros [= <-]. destruct Hu as (? & ? & ?). by split_and!. }
  assert (month ≠ U) as Hne by (destruct Hu as (? & _); congruence).
  pose proof (retry_loop_events (attempt_result w month) 3 3 U 0%nat) as Hevs.
  assert (¬ concerns U (EvDownload month)) as Hd by (intros [?|[?|?]]; congruence).
  assert (¬ concerns U EvShutdown) as Hs by (intros [?|[?|?]]; congruence).
  assert (¬ concerns U (EvSleep 1)) as Hsl by (intros [?|[?|?]]; congruence).
  destruct (cached w month).
  - unfold download_file_with_retry.
    destruct (retry_loop _ _ _ _) as [[] evs]; cbn in Hevs.
    + destruct (validates_after_download w month).
      * apply put_and_continue_untouched; try done; by repeat constructor.
      * intros [= <-]. apply leave_download_loop_untouched; [|done].
        constructor; [done|]. rewrite Forall_app. split; [done|by constructor].
    + intros [= <-]. apply leave_download_loop_untouched; [|done].
      constructor; [done|]. rewrite Forall_app. split; [done|by constructor].
  - apply put_and_continue_untouched; try done; constructor.
  - unfold download_file_with_retry.
    destruct (retry_loop _ _ _ _) as [[] evs]; cbn in Hevs.
    + destruct (validates_after_download w month).
      * apply put_and_continue_untouched; try done; by repeat constructor.
      * intros [= <-]. apply leave_download_loop_untouched; [|done].
        constructor; [done|]. rewrite Forall_app. split; [done|by constructor].
    + intros [= <-]. apply leave_download_loop_untouched; [|done].
      constructor; [done|]. rewrite Forall_app. split; [done|by constructor].
Qed.

Section WorkerFacts.
Variable read_game : string → result (option Game).
Variable py_int : string → option Z.
Variable target_fens : gset string.

Lemma process_worker_step_untouched U w a a' :
  untouched U a →
  process_worker_step read_game py_int target_fens w a = Some a' →
  untouched U a'.
Proof.
  intros (Hp & Hq & Ht). unfold process_worker_step.
  destruct (process_worker_done a); [done|].
  destruct (download_queue a) as [|month rest] eqn:Hqueue.
  - destruct (download_complete a); [|done]. intros [= <-]. split_and!; cbn; try done.
    all: apply not_elem_of_nil.
  - apply not_elem_of_cons in Hq as [Hne Hrest].
    assert (¬ concerns U (EvProcess month)) as Hd by (intros [?|[?|?]]; congruence).
    assert (¬ concerns U EvCheckpoint) as Hs by (intros [?|[?|?]]; congruence).
    destruct (unit_ok w month); intros [= <-]; split_and!; cbn; try done.
    + set_solver.
    + rewrite Forall_app. split; [done|]. by repeat constructor.
    + rewrite Forall_app. split; [done|]. by repeat constructor.
Qed.

Lemma step_untouched U w a act :
  untouched U a → untouched U (step read_game py_int target_fens w a act).
Proof.
  intros Hu. destruct act; cbn.
  - destruct (download_worker_step w a) as [a'|] eqn:H; [|done].
    by apply (download_worker_step_untouched U w a).
  - destruct (process_worker_step _ _ _ w a) as [a'|] eqn:H; [|done].
    by apply (process_worker_step_untouched U w a).
  - destruct Hu as (Hp & Hq & Ht). split_and!; cbn; try done.
    rewrite Forall_app. split; [done|]. constructor; [|constructor].
    intros [?|[?|?]]; congruence.
Qed.

Lemma run_workers_untouched U w schedule : ∀ a,
  untouched U a → untouched U (run_workers read_game py_int target_fens w schedule a).
Proof.
  induction schedule as [|act schedule IH]; intros a Hu; [done|].
  cbn. apply IH. by apply step_untouched.
Qed.

Lemma remaining_months_without U months processed :
  U ∈ processed →
  remaining_months (filter (fun month => month ≠ U) months) processed
  = remaining_months months processed.
Proof.
  intros HU. unfold remaining_months.
  induction months as [|m months IH]; [done|].
  rewrite !filter_cons. repeat case_decide; try done.
  - rewrite filter_cons. case_decide; [|done]. by rewrite IH.
  - rewrite filter_cons. case_decide; [done|]. done.
  - subst. done.
Qed.

(** C2: a unit [U] that is in the completed set at startup is not in
    the list of months the workers are started on; the workers never
    download, queue or process [U], not even when [U] is in the list the
    download worker is handed; and the run, statistics and result
    document included, is the run over the months without [U]. *)
Theorem completed_units_not_reprocessed (w : World) (schedule : list action)
    (now : string) (months worklist : list string) (processed : gset string)
    (st : gmap string PopularityStats) (U : string) :
  U ∈ processed →
(U ∉ remaining_months months processed)
  ∧ untouched U (run_workers read_game py_int target_fens w schedule
                   (worklist_state worklist processed st))
  ∧ run_analysis read_game py_int target_fens w schedule now months processed st
    = run_analysis read_game py_int target_fens w schedule now
        (filter (fun month => month ≠ U) months) processed st.
Proof.
  intros HU. split_and!.
  - unfold remaining_months. rewrite list_elem_of_filter. tauto.
  - apply run_workers_untouched. split_and!; cbn; [done| |constructor].
    apply not_elem_of_nil.
  - unfold run_analysis, start_workers. by rewrite remaining_months_without.
Qed.
End WorkerFacts.


Lemma completed_units_not_reprocessed_witness :
  ("2021-07" ∉ remaining_months ["2021-07"; "2021-08"] {["2021-07"]})
  ∧ untouched "2021-07"
      (run_workers sample_read_game decimal_int sample_target_fens sample_world
         [Download; Download; Process; Download; Process]
         (worklist_state ["2021-07"; "2021-08"] {["2021-07"]} sample_stats))
  ∧ run_analysis sample_read_game decimal_int sample_target_fens sample_world
      [Download; Download; Process; Download; Process] sample_now
      ["2021-07"; "2021-08"] {["2021-07"]} sample_stats
    = run_analysis sample_read_game decimal_int sample_target_fens sample_world
        [Download; Download; Process; Download; Process] sample_now
        (filter (fun month => month ≠ "2021-07") ["2021-07"; "2021-08"])
        {["2021-07"]} sample_stats.
Proof.
  apply (completed_units_not_reprocessed sample_read_game decimal_int
           sample_target_fens sample_world
           [Download; Download; Process; Download; Process] sample_now
           ["2021-07"; "2021-08"] ["2021-07"; "2021-08"] {["2021-07"]}
           sample_stats "2021-07").
  apply elem_of_singleton. reflexivity.
Defined.


(** * Further properties *)

(** ** Pipeline *)

Section PipelineInvariant.
Variable read_game : string → result (option Game).
Variable py_int : string → option Z.
Variable target_fens : gset string.
Variable w : World.
Variable worklist : list string.
Variable processed0 : gset string.
Variable st0 : gmap string PopularityStats.

Local Notation "'invariant'" :=
  (pipeline_invariant read_game py_int target_fens w worklist processed0 st0).

Lemma processed_units_app tr1 tr2 :
  processed_units (tr1 ++ tr2) = processed_units tr1 ++ processed_units tr2.
Proof. apply omap_app. Qed.

Lemma checkpoints_saved_app tr1 tr2 :
  checkpoints_saved (tr1 ++ tr2) = (checkpoints_saved tr1 + checkpoints_saved tr2)%nat.
Proof. unfold checkpoints_saved. by rewrite List.filter_app, length_app. Qed.

Lemma download_only_events evs :
  Forall (fun e => is_download_event e = true) evs →
  processed_units evs = [] ∧ checkpoints_saved evs = 0%nat.
Proof.
  induction 1 as [|e evs He _ [IH1 IH2]]; [done|].
  destruct e; try done.
Qed.

Lemma retry_loop_download_only outcome max_retries remaining : ∀ attempt,
  Forall (fun e => is_download_event e = true)
         (retry_loop outcome max_retries attempt remaining).2.
Proof.
  induction remaining as [|remaining IH]; intros attempt; cbn [retry_loop]; [by constructor|].
  specialize (IH (S attempt)).
  destruct (outcome attempt); [destruct (attempt <? max_retries - 1)%nat|..];
    try destruct (retry_loop _ _ _ _) as [ok evs]; cbn in *;
    repeat (constructor; [done|]); done.
Qed.

Lemma invariant_extend a a' evs :
  invariant a →
  Forall (fun e => is_download_event e = true ∨ e = EvShutdown) evs →
  trace a' = trace a ++ evs →
  processed_months a' = processed_months a →
  stats a' = stats a →
  (length (download_queue a') ≤ queue_maxsize)%nat →
  (processed_units (trace a) ++ download_queue a' ++ months_left a')
    `sublist_of` (processed_units (trace a) ++ download_queue a ++ months_left a) →
  invariant a'.
Proof.
  intros (Hq & Hs & Hp & Hst & Hc) Hevs Htr Hpm Hstats Hq' Hs'.
  assert (processed_units evs = [] ∧ checkpoints_saved evs = 0%nat) as [He1 He2].
  { clear -Hevs. induction Hevs as [|e evs He _ [IH1 IH2]]; [done|].
    destruct He as [He| ->]; [destruct e; try done|done]. }
  unfold pipeline_invariant.
  rewrite Htr, processed_units_app, checkpoints_saved_app, He1, He2, app_nil_r,
    Nat.add_0_r, Hpm, Hstats.
  split_and!; try done. by etrans.
Qed.

Lemma sublist_drop_middle (procs q rest rest' : list string) :
  rest' `sublist_of` rest →
  (procs ++ q ++ rest') `sublist_of` (procs ++ q ++ rest).
Proof. intros H. apply sublist_app; [done|]. by apply sublist_app. Qed.

Lemma download_worker_step_invariant a a' :
  invariant a → download_worker_step w a = Some a' → invariant a'.
Proof.
  intros Hinv. pose proof Hinv as (Hq & _). unfold download_worker_step.
  destruct (download_complete a); [done|].
  destruct (months_left a) as [|month rest] eqn:Hm.
  { intros [= <-]. apply (invariant_extend a _ []); cbn; try done;
      try (by rewrite app_nil_r). by rewrite Hm. }
  destruct (shutdown_requested a).
  { intros [= <-]. apply (invariant_extend a _ []); cbn; try done;
      try (by rewrite app_nil_r).
    rewrite Hm. apply sublist_drop_middle, sublist_nil_l. }
  case_decide as Hin.
  { intros [= <-]. apply (invariant_extend a _ []); cbn; try done;
      try (by rewrite app_nil_r).
    rewrite Hm. apply sublist_drop_middle. by apply sublist_cons. }
  assert (∀ before after a1,
    Forall (fun e => is_download_event e = true ∨ e = EvShutdown) before →
    Forall (fun e => is_download_event e = true ∨ e = EvShutdown) after →
    put_and_continue month rest before after a = Some a1 → invariant a1)
    as Hput.
  { intros before after a1 Hb Ha. unfold put_and_continue.
    destruct (Nat.ltb_spec (length (download_queue a)) queue_maxsize); [|done].
    intros [= <-].
    apply (invariant_extend a _ (before ++ [EvPut month] ++ after)); try done.
    - rewrite !Forall_app. split_and!; try done. constructor; [by left|constructor].
    - cbn. rewrite length_app. cbn. lia.
    - cbn. rewrite Hm, <- !app_assoc. done. }
  assert (∀ evs, Forall (fun e => is_download_event e = true) evs →
    invariant
      (leave_download_loop true (EvDownload month :: evs ++ [EvShutdown]) a))
    as Hleave.
  { intros evs Hevs.
    apply (invariant_extend a _ (EvDownload month :: evs ++ [EvShutdown])); try done.
    - constructor; [by left|]. rewrite Forall_app. split.
      + eapply Forall_impl; [exact Hevs|]. intros e He. by left.
      + constructor; [by right|constructor].
    - cbn. rewrite Hm. apply sublist_drop_middle, sublist_nil_l. }
  pose proof (retry_loop_download_only (attempt_result w month) 3 3 0%nat) as Hevs.
  assert (∀ evs, Forall (fun e => is_download_event e = true) evs →
    Forall (fun e => is_download_event e = true ∨ e = EvShutdown)
           (EvDownload month :: evs)) as Hdl.
  { intros evs H. constructor; [by left|].
    eapply Forall_impl; [exact H|]. intros e He. by left. }
  destruct (cached w month).
  - unfold download_file_with_retry.
    destruct (retry_loop _ _ _ _) as [[] evs]; cbn in Hevs.
    + destruct (validates_after_download w month).
      * apply Hput; [by apply Hdl|]. constructor; [by left|constructor].
      * intros [= <-]. by apply Hleave.
    + intros [= <-]. by apply Hleave.
  - apply Hput; constructor.
  - unfold download_file_with_retry.
    destruct (retry_loop _ _ _ _) as [[] evs]; cbn in Hevs.
    + destruct (validates_after_download w month).
      * apply Hput; [by apply Hdl|]. constructor; [by left|constructor].
      * intros [= <-]. by apply Hleave.
    + intros [= <-]. by apply Hleave.
Qed.

Lemma process_worker_step_invariant a a' :
  invariant a →
  process_worker_step read_game py_int target_fens w a = Some a' →
  invariant a'.
Proof.
  intros (Hq & Hs & Hp & Hst & Hc). unfold process_worker_step.
  destruct (process_worker_done a); [done|].
  destruct (download_queue a) as [|month rest] eqn:Hqueue.
  - destruct (download_complete a); [|done]. intros [= <-].
    unfold pipeline_invariant.
    cbn [trace stats processed_months download_queue months_left].
    split_and!; done.
  - cbn [length] in Hq.
    assert ((processed_units (trace a) ++ [month]) ++ rest ++ months_left a
            = processed_units (trace a) ++ (month :: rest) ++ months_left a) as Hord
      by (by rewrite <- app_assoc).
    destruct (unit_ok w month) eqn:Hok; intros [= <-]; unfold pipeline_invariant;
      cbn [trace stats processed_months download_queue months_left];
      rewrite processed_units_app, checkpoints_saved_app;
      change (processed_units [EvProcess month; EvCheckpoint]) with [month];
      change (processed_units [EvProcess month]) with [month];
      unfold successful_units; rewrite filter_app, filter_cons, filter_nil, foldl_app;
      rewrite Hord; rewrite Hok.
    + case_decide; [|done].
      split_and!; [lia|done| |by rewrite Hst|].
      * rewrite Hp, list_to_set_app_L. cbn. set_solver.
      * rewrite length_app, Hc. done.
    + case_decide; [done|].
      rewrite app_nil_r. split_and!; [lia|done|done|by rewrite Hst|].
      change (checkpoints_saved [EvProcess month]) with 0%nat.
      unfold successful_units in Hc. lia.
Qed.

Lemma step_invariant a act :
  invariant a →
  invariant (step read_game py_int target_fens w a act).
Proof.
  intros Hinv. destruct act; cbn.
  - destruct (download_worker_step w a) as [a'|] eqn:H; [|done].
    by apply (download_worker_step_invariant a).
  - destruct (process_worker_step _ _ _ w a) as [a'|] eqn:H; [|done].
    by apply (process_worker_step_invariant a).
  - apply (invariant_extend a _ [EvShutdown]); cbn; try done.
    + constructor; [by right|constructor].
    + by destruct Hinv.
Qed.

Lemma run_workers_invariant schedule : ∀ a,
  invariant a →
  invariant (run_workers read_game py_int target_fens w schedule a).
Proof.
  induction schedule as [|act schedule IH]; intros a Hinv; [done|].
  unfold run_workers in *. cbn [foldl]. apply IH. by apply step_invariant.
Qed.
End PipelineInvariant.

Lemma start_workers_invariant read_game py_int target_fens w months processed st :
  pipeline_invariant read_game py_int target_fens w
    (remaining_months months processed) processed st
    (start_workers months processed st).
Proof.
  unfold pipeline_invariant, start_workers. cbn.
  split_and!; try done; [lia|set_solver].
Qed.

Section PipelineFacts.
Variable read_game : string → result (option Game).
Variable py_int : string → option Z.
Variable target_fens : gset string.

(** X1: the queue between the two workers never holds more than three
    units, whatever the schedule of the workers and of the interrupts. *)
Theorem download_queue_bounded (w : World) (schedule : list action)
    (months : list string) (processed : gset string)
    (st : gmap string PopularityStats) :
  (length (download_queue
             (run_workers read_game py_int target_fens w schedule
                (start_workers months processed st))) ≤ 3)%nat.
Proof.
  apply (run_workers_invariant read_game py_int target_fens w
           (remaining_months months processed) processed st schedule),
        start_workers_invariant.
Qed.


(** X3: at every point of a run the completed set is the set loaded
    at the start together with the units whose processing returned
    [True], and one checkpoint was saved for each of these: a unit whose
    processing failed is neither recorded nor checkpointed. *)
Theorem completed_set_is_successful_units (w : World) (schedule : list action)
    (months : list string) (processed : gset string)
    (st : gmap string PopularityStats) :
  let a := run_workers read_game py_int target_fens w schedule
             (start_workers months processed st) in
  processed_months a
  = processed ∪ list_to_set (successful_units w (processed_units (trace a)))
  ∧ checkpoints_saved (trace a)
    = length (successful_units w (processed_units (trace a))).
Proof.
  cbn zeta.
  destruct (run_workers_invariant read_game py_int target_fens w
              (remaining_months months processed) processed st schedule _
              (start_workers_invariant read_game py_int target_fens w months processed st))
    as (_ & _ & Hp & _ & Hc).
  by split.
Qed.

(** X4: at every point of a run the statistics are the statistics
    at the start with the games of the units handed to the processor so
    far applied to them, unit after unit in the order they were
    processed, those of a unit whose processing then failed included;
    downloads, interrupts and checkpoints change nothing in them. *)
Theorem statistics_are_processed_units_games (w : World) (schedule : list action)
    (months : list string) (processed : gset string)
    (st : gmap string PopularityStats) :
  let a := run_workers read_game py_int target_fens w schedule
             (start_workers months processed st) in
  stats a
  = foldl (fun st' month =>
             process_games read_game py_int target_fens (unit_games w month) st')
      st (processed_units (trace a)).
Proof.
  cbn zeta.
  by destruct (run_workers_invariant read_game py_int target_fens w
              (remaining_months months processed) processed st schedule _
              (start_workers_invariant read_game py_int target_fens w months processed st))
    as (_ & _ & _ & Hs & _).
Qed.



End PipelineFacts.

(** ** Game Parser *)

Lemma apply_updates_dom ups : ∀ stats : gmap string PopularityStats,
  dom (apply_updates ups stats).1 = dom stats.
Proof.
  induction ups as [|u rest IH]; intros stats; cbn [apply_updates]; [done|].
  destruct (stats !! u_fen u) as [s|] eqn:Hs; [|apply IH].
  assert (dom (<[u_fen u:=(update_record (u_rating u) (u_result u) s).1]> stats)
          = dom stats) as Hd.
  { rewrite dom_insert_L. apply elem_of_dom_2 in Hs. set_solver. }
  destruct (update_record (u_rating u) (u_result u) s) as [s' [e|]]; cbn in *.
  - done.
  - by rewrite IH.
Qed.

Section ParserFacts.
Variable read_game : string → result (option Game).
Variable py_int : string → option Z.
Variable target_fens : gset string.

Lemma collect_updates_take avg res plies : ∀ move_count,
  collect_updates target_fens avg res (take (max_plies - move_count) plies) move_count
  = collect_updates target_fens avg res plies move_count.
Proof.
  induction plies as [|ply rest IH]; intros k; [by rewrite take_nil|].
  destruct (Nat.leb_spec max_plies k) as [Hge|Hlt].
  - replace (max_plies - k)%nat with 0%nat by lia. cbn [take collect_updates].
    destruct (Nat.leb_spec max_plies k); [done|lia].
  - replace (max_plies - k)%nat with (S (max_plies - S k)) by lia.
    cbn [take collect_updates]. by rewrite IH.
Qed.


Lemma process_game_dom text (stats : gmap string PopularityStats) :
  dom (process_game read_game py_int target_fens text stats).1 = dom stats.
Proof.
  rewrite process_game_of_body. unfold process_game_body.
  destruct (read_game text) as [[g|]|e]; [|done..].
  destruct (_ || _); [done|].
  destruct (collect_updates _ _ _ _ _) as [[|u ups]|e]; [done| |done].
  pose proof (apply_updates_dom (u :: ups) stats) as Hd.
  by destruct (apply_updates (u :: ups) stats) as [st [e|]].
Qed.

Lemma process_games_dom games : ∀ stats : gmap string PopularityStats,
  dom (process_games read_game py_int target_fens games stats) = dom stats.
Proof.
  induction games as [|g games IH]; intros stats; [done|].
  unfold process_games in *. cbn [foldl]. by rewrite IH, process_game_dom.
Qed.

Lemma record_after_games ups : ∀ r,
  0 ≤ games_analyzed r →
  games_analyzed (record_after ups r) = games_analyzed r + Z.of_nat (length ups).
Proof.
  induction ups as [|u ups IH]; intros r Hr; [cbn; lia|].
  change (record_after (u :: ups) r)
    with (record_after ups (update_record (u_rating u) (u_result u) r).1).
  pose proof (update_record_games (u_rating u) (u_result u) r Hr) as Hg.
  rewrite IH by lia. rewrite Hg. cbn [length]. lia.
Qed.



Lemma process_game_counts text (stats : gmap string PopularityStats) :
  nonneg_counts stats →
  nonneg_counts (process_game read_game py_int target_fens text stats).1
  ∧ ∀ fen r, stats !! fen = Some r →
      ∃ r', (process_game read_game py_int target_fens text stats).1 !! fen = Some r'
            ∧ games_analyzed r ≤ games_analyzed r'.
Proof.
  intros Hnn.
  assert (nonneg_counts stats ∧ ∀ fen r, stats !! fen = Some r →
            ∃ r', stats !! fen = Some r' ∧ games_analyzed r ≤ games_analyzed r')
    as Hsame by (split; [done|]; intros fen r Hr; exists r; split; [done|lia]).
  rewrite process_game_of_body. unfold process_game_body.
  destruct (read_game text) as [[g|]|e]; [|done..].
  destruct (_ || _); [done|].
  destruct (collect_updates _ _ _ _ _) as [[|u ups]|e]; [done| |done].
  destruct (apply_updates_lookup (u :: ups) stats Hnn) as (Hok & Hnn' & Hl).
  destruct (apply_updates (u :: ups) stats) as [st o]. cbn [fst snd] in *. subst o.
  split; [done|]. intros fen r Hr. rewrite Hl, Hr. eexists. split; [done|].
  rewrite record_after_games by (exact (nonneg_counts_lookup stats fen r Hnn Hr)). lia.
Qed.

Lemma process_games_counts games : ∀ stats : gmap string PopularityStats,
  nonneg_counts stats →
  nonneg_counts (process_games read_game py_int target_fens games stats)
  ∧ ∀ fen r, stats !! fen = Some r →
      ∃ r', process_games read_game py_int target_fens games stats !! fen = Some r'
            ∧ games_analyzed r ≤ games_analyzed r'.
Proof.
  induction games as [|g games IH]; intros stats Hnn.
  - split; [done|]. intros fen r Hr. exists r. split; [done|lia].
  - destruct (process_game_counts g stats Hnn) as [Hnn1 H1].
    destruct (IH _ Hnn1) as [Hnn2 H2].
    unfold process_games in *. cbn [foldl]. split; [done|].
    intros fen r Hr. destruct (H1 fen r Hr) as (r1 & Hr1 & Hle1).
    destruct (H2 fen r1 Hr1) as (r2 & Hr2 & Hle2). exists r2. split; [done|lia].
Qed.

(** X7: the plies of a game after the seventieth have no effect,
    not even when one of them cannot be replayed: [process_game] gives
    the same statistics and the same outcome on the game cut down to its
    first seventy plies. *)
Theorem replay_capped_at_seventy_plies (game_text : string)
    (stats : gmap string PopularityStats) :
  process_game (cap_plies read_game) py_int target_fens game_text stats
  = process_game read_game py_int target_fens game_text stats.
Proof.
  unfold process_game, process_game_body, cap_plies.
  destruct (read_game game_text) as [[g|]|e]; [|done..].
  change (headers_get (truncate_game g)) with (headers_get g).
  cbn [mainline truncate_game].
  pose proof (collect_updates_take
    ((inject_Z (_safe_int py_int (headers_get g "WhiteElo" "0")
                + _safe_int py_int (headers_get g "BlackElo" "0")) / 2)%Q)
    (headers_get g "Result" "*") (mainline g) 0) as Ht.
  rewrite Nat.sub_0_r in Ht. by rewrite Ht.
Qed.


(** X9: processing games never removes a position from the
    statistics and never lowers its [games_analyzed], whatever the games
    are (unreadable, unrated and broken ones included). *)
Theorem games_analyzed_never_decreases (games : list string)
    (stats : gmap string PopularityStats) (fen : string) (r : PopularityStats) :
  nonneg_counts stats → stats !! fen = Some r →
  ∃ r', process_games read_game py_int target_fens games stats !! fen = Some r'
        ∧ games_analyzed r ≤ games_analyzed r'.
Proof.
  intros Hnn Hr. destruct (process_games_counts games stats Hnn) as [_ H].
  by apply H.
Qed.
End ParserFacts.

(** ** Pipeline and Game Parser together *)

Section PipelineKeys.
Variable read_game : string → result (option Game).
Variable py_int : string → option Z.
Variable target_fens : gset string.

Lemma process_units_dom (w : World) units : ∀ st : gmap string PopularityStats,
  dom (foldl (fun st' month =>
                process_games read_game py_int target_fens (unit_games w month) st')
         st units)
  = dom st.
Proof.
  induction units as [|month units IH]; intros st; [done|].
  cbn [foldl]. by rewrite IH, process_games_dom.
Qed.

(** X6: a run never adds a position to the statistics and never
    drops one: the key set is the one of the start, whatever is
    downloaded and processed. *)
Theorem statistics_keys_fixed (w : World) (schedule : list action)
    (months : list string) (processed : gset string)
    (st : gmap string PopularityStats) :
  dom (stats (run_workers read_game py_int target_fens w schedule
                (start_workers months processed st)))
  = dom st.
Proof.
  destruct (run_workers_invariant read_game py_int target_fens w
              (remaining_months months processed) processed st schedule _
              (start_workers_invariant read_game py_int target_fens w months processed st))
    as (_ & _ & _ & Hs & _).
  rewrite Hs. apply process_units_dom.
Qed.
End PipelineKeys.

(** ** Popularity Scorer *)

Lemma score_record_same_but_scores ths s : same_but_scores s (score_record ths s).
Proof. unfold score_record. by destruct (games_analyzed s =? 0). Qed.

Lemma positive_counts_nil (stats : gmap string PopularityStats) :
  positive_counts stats = [] ↔ map_Forall (fun _ r => games_analyzed r ≤ 0) stats.
Proof.
  split.
  - intros Hnil k r Hk. cbn. destruct (Z.le_gt_cases (games_analyzed r) 0) as [|Hpos]; [done|].
    pose proof (positive_counts_elem stats k r Hk ltac:(lia)) as Hin.
    rewrite Hnil in Hin. by apply elem_of_nil in Hin.
  - intros Hall. unfold positive_counts.
    destruct (filter _ _) as [|c cs] eqn:Hf; [done|].
    assert (c ∈ filter (fun g => 0 < g) (games_analyzed <$> (map_to_list stats).*2))
      as Hin by (rewrite Hf; left).
    apply list_elem_of_filter in Hin as [Hpos Hin].
    apply list_elem_of_fmap in Hin as (r & -> & Hin).
    apply list_elem_of_fmap in Hin as ([k r'] & -> & Hin).
    apply elem_of_map_to_list in Hin. specialize (Hall k r' Hin). cbn in *. lia.
Qed.

Lemma positive_counts_scored ths (stats : gmap string PopularityStats) :
  positive_counts (score_record ths <$> stats) = positive_counts stats.
Proof.
  unfold positive_counts. rewrite map_to_list_fmap. f_equal.
  rewrite <- !list_fmap_compose. apply list_fmap_ext.
  intros i [k r] _. cbn. by rewrite score_record_games.
Qed.

Lemma score_record_idemp ths s :
  score_record ths (score_record ths s) = score_record ths s.
Proof. unfold score_record. by destruct (games_analyzed s =? 0) eqn:H; cbn; rewrite H. Qed.

Lemma confidence_ladder_steps g : confidence_ladder g ∈ confidence_steps.
Proof.
  unfold confidence_ladder, confidence_steps.
  repeat destruct (_ <=? _); set_solver.
Qed.


Lemma scan_thresholds_le games ths : ∀ score,
  scan_thresholds games ths score ≤ score + Z.of_nat (length ths).
Proof.
  induction ths as [|t ths IH]; intros score; cbn [scan_thresholds length]; [lia|].
  destruct (games <=? t); [lia|]. specialize (IH (score + 1)). lia.
Qed.

(** X10: the scoring pass keeps the key set and changes nothing in a
    record but the two scores, and a second pass over its result changes
    nothing at all. *)
Theorem scoring_pass_idempotent (stats stats' : gmap string PopularityStats) :
  calculate_popularity_scores stats = Ok stats' →
  calculate_popularity_scores stats' = Ok stats'
  ∧ dom stats' = dom stats
  ∧ ∀ fen s', stats' !! fen = Some s' →
      ∃ s, stats !! fen = Some s ∧ same_but_scores s s'.
Proof.
  intros Hcalc.
  destruct (calculate_popularity_scores_Ok _ _ Hcalc)
    as [[Hnil ->]|(Hne & ths & Hths & ->)].
  - split_and!; [done..|]. intros fen s Hs. exists s. by split.
  - split_and!.
    + unfold calculate_popularity_scores. rewrite positive_counts_scored.
      destruct (positive_counts stats) as [|c cs]; [done|].
      rewrite Hths. f_equal. rewrite <- map_fmap_compose. apply map_fmap_ext.
      intros k r _. cbn. apply score_record_idemp.
    + apply dom_fmap_L.
    + intros fen s'. rewrite lookup_fmap.
      destruct (stats !! fen) as [s|]; [|done]. intros [= <-].
      exists s. split; [done|]. apply score_record_same_but_scores.
Qed.

(** X11: when no position has a game counted, the scoring pass
    returns the statistics as they are, scores included. *)
Theorem scoring_pass_without_games (stats : gmap string PopularityStats) :
  map_Forall (fun _ r => games_analyzed r ≤ 0) stats →
  calculate_popularity_scores stats = Ok stats.
Proof.
  intros H. apply positive_counts_nil in H.
  unfold calculate_popularity_scores. by rewrite H.
Qed.

(** X12: when some position has a game counted, every record after
    the scoring pass has a popularity score from 0 to 10 and a confidence
    among 0, 0.4, 0.6, 0.8 and 1.0, and either is 0 exactly for the
    records with no game. *)
Theorem scores_in_range (stats stats' : gmap string PopularityStats)
    (fen : string) (s' : PopularityStats) :
  calculate_popularity_scores stats = Ok stats' →
  positive_counts stats ≠ [] →
  stats' !! fen = Some s' →
  0 ≤ popularity_score s' ≤ 10
  ∧ (popularity_score s' = 0 ↔ games_analyzed s' = 0)
  ∧ (confidence_score s' = 0%Q ↔ games_analyzed s' = 0)
  ∧ confidence_score s' ∈ confidence_steps.
Proof.
  intros Hcalc Hne.
  destruct (calculate_popularity_scores_Ok _ _ Hcalc)
    as [[Hnil ->]|(_ & ths & Hths & ->)]; [done|].
  rewrite lookup_fmap. destruct (stats !! fen) as [s|]; [|done]. intros [= <-].
  rewrite score_record_games. unfold score_record.
  pose proof (scan_thresholds_ge (games_analyzed s) ths 1).
  destruct (Z.eqb_spec (games_analyzed s) 0) as [Hz|Hnz]; cbn.
  - split_and!; [lia|lia|done|done|set_solver].
  - split_and!; [lia|lia|split; lia| |apply confidence_ladder_steps].
    split; [|done]. unfold confidence_ladder.
    repeat destruct (_ <=? _); discriminate.
Qed.


(** ** Download Manager *)

Lemma retry_loop_succeeds outcome max_retries remaining : ∀ attempt,
  (attempt + remaining = max_retries)%nat →
  (retry_loop outcome max_retries attempt remaining).1 = true
  ↔ ∃ k, (attempt ≤ k < max_retries)%nat ∧ outcome k = Installed.
Proof.
  induction remaining as [|remaining IH]; intros attempt Hsum; cbn [retry_loop].
  - split; [done|]. intros (k & Hk & _). lia.
  - specialize (IH (S attempt) ltac:(lia)).
    assert ((∃ k, (S attempt ≤ k < max_retries)%nat ∧ outcome k = Installed)
            → ∃ k, (attempt ≤ k < max_retries)%nat ∧ outcome k = Installed) as Hup.
    { intros (k & Hk & Ho). exists k. split; [lia|done]. }
    assert (outcome attempt ≠ Installed →
            (∃ k, (attempt ≤ k < max_retries)%nat ∧ outcome k = Installed)
            → ∃ k, (S attempt ≤ k < max_retries)%nat ∧ outcome k = Installed) as Hdown.
    { intros Hne (k & Hk & Ho). exists k. split; [|done].
      destruct (decide (k = attempt)) as [->|]; [done|lia]. }
    destruct (outcome attempt) eqn:Hout.
    + destruct (Nat.ltb_spec attempt (max_retries - 1)).
      * destruct (retry_loop _ _ _ _) as [ok evs]. cbn in *.
        rewrite IH. split; [apply Hup|by apply Hdown].
      * cbn. split; [done|]. intros (k & Hk & Ho).
        assert (k = attempt) as -> by lia. congruence.
    + destruct (retry_loop _ _ _ _) as [ok evs]. cbn in *.
      rewrite IH. split; [apply Hup|by apply Hdown].
    + destruct (retry_loop _ _ _ _) as [ok evs]. cbn in *.
      rewrite IH. split; [apply Hup|by apply Hdown].
    + cbn. split; [|done]. intros _. exists attempt. split; [lia|done].
Qed.

Lemma retry_loop_sleeps outcome max_retries remaining : ∀ attempt,
  (attempt + remaining = max_retries)%nat →
  seconds_slept (retry_loop outcome max_retries attempt remaining).2
  ≤ 30 * Z.of_nat (remaining - 1).
Proof.
  induction remaining as [|remaining IH]; intros attempt Hsum; cbn [retry_loop]; [done|].
  specialize (IH (S attempt) ltac:(lia)).
  destruct (outcome attempt).
  - destruct (Nat.ltb_spec attempt (max_retries - 1)).
    + destruct (retry_loop _ _ _ _) as [ok evs]. cbn in *.
      destruct remaining; [lia|]. cbn in *. lia.
    + cbn. lia.
  - destruct (retry_loop _ _ _ _) as [ok evs]. cbn in *. lia.
  - destruct (retry_loop _ _ _ _) as [ok evs]. cbn in *. lia.
  - cbn. lia.
Qed.

Lemma retry_loop_sleeps_nonneg outcome max_retries remaining : ∀ attempt,
  0 ≤ seconds_slept (retry_loop outcome max_retries attempt remaining).2.
Proof.
  induction remaining as [|remaining IH]; intros attempt; cbn [retry_loop]; [done|].
  specialize (IH (S attempt)).
  destruct (outcome attempt); [destruct (attempt <? max_retries - 1)%nat|..];
    try destruct (retry_loop _ _ _ _) as [ok evs]; cbn in *; lia.
Qed.

(** X14: [download_file_with_retry] returns [True] exactly when one
    of the first [max_retries] attempts installs the file. *)
Theorem download_succeeds_iff_some_attempt_installs
    (outcome : nat → attempt_outcome) (max_retries : nat) :
  (download_file_with_retry outcome max_retries).1 = true
  ↔ ∃ k, (k < max_retries)%nat ∧ outcome k = Installed.
Proof.
  unfold download_file_with_retry.
  rewrite (retry_loop_succeeds outcome max_retries max_retries 0%nat) by lia.
  split; intros (k & Hk & Ho); exists k; (split; [lia|done]).
Qed.

(** X15: the retry loop waits at most 30 seconds after each attempt
    but the last, [30 * (max_retries - 1)] seconds in all. *)
Theorem download_waits_bounded (outcome : nat → attempt_outcome) (max_retries : nat) :
  0 ≤ seconds_slept (download_file_with_retry outcome max_retries).2
    ≤ 30 * Z.of_nat (max_retries - 1).
Proof.
  split; [apply retry_loop_sleeps_nonneg|by apply retry_loop_sleeps].
Qed.

(** ** Result document *)

Lemma asdict_dom s :
  dom (asdict s)
  = {[ "popularity_score"; "frequency_count"; "white_wins"; "black_wins"; "draws";
       "games_analyzed"; "avg_rating"; "confidence_score"; "analysis_date" ]}.
Proof.
  unfold asdict. cbn [list_to_map foldr uncurry fst snd Datatypes.uncurry].
  rewrite !dom_insert_L, dom_empty_L. set_solver.
Qed.

Lemma final_stats_dict_dom s : dom (final_stats_dict s) = result_fields.
Proof.
  unfold final_stats_dict, result_fields.
  destruct (0 <? games_analyzed s); rewrite !dom_insert_L, asdict_dom; set_solver.
Qed.

Lemma final_stats_dict_fields s :
  final_stats_dict s !! "analysis_date" = Some (PStr (analysis_date s))
  ∧ final_stats_dict s !! "games_analyzed" = Some (PInt (games_analyzed s))
  ∧ final_stats_dict s !! "popularity_score" = Some (PInt (popularity_score s)).
Proof.
  unfold final_stats_dict. destruct (0 <? games_analyzed s);
    rewrite !(lookup_insert_ne _ "draw_rate"), !(lookup_insert_ne _ "black_win_rate"),
      !(lookup_insert_ne _ "white_win_rate") by done; done.
Qed.

(** X16: the result document has one record for every position of
    the statistics and no other; every record has the nine fields of
    [PopularityStats] and the three rates, and carries the date of the
    save, which is also written back into the statistics themselves. *)
Theorem result_document_shape (now : string) (stats : gmap string PopularityStats) :
  let '(dated, final_data) := save_final_results now stats in
  dom final_data = dom stats
  ∧ dated = set_analysis_date now <$> stats
  ∧ ∀ fen d, final_data !! fen = Some d →
      dom d = result_fields ∧ d !! "analysis_date" = Some (PStr now).
Proof.
  cbn. split_and!; [by rewrite !dom_fmap_L|done|].
  intros fen d. rewrite !lookup_fmap.
  destruct (stats !! fen) as [s|]; [|done]. intros [= <-].
  split; [apply final_stats_dict_dom|]. apply final_stats_dict_fields.
Qed.




(** ** Month list *)

Lemma month_loop_closed cy cm : ∀ (count fuel : nat) (year month : Z),
  1 ≤ month ≤ 12 → 1 ≤ cm ≤ 12 →
  count = Z.to_nat (12 * cy + cm - (12 * year + month - 1)) →
  (count ≤ fuel)%nat →
  month_loop fuel cy cm year month
  = nth_month <$> seqZ (12 * year + month - 1) (Z.of_nat count).
Proof.
  induction count as [|count IH]; intros fuel year month Hm Hcm Hcount Hfuel.
  - destruct fuel as [|fuel]; [done|]. cbn [month_loop].
    destruct (Z.ltb_spec year cy), (Z.eqb_spec year cy), (Z.leb_spec month cm);
      try done; lia.
  - destruct fuel as [|fuel]; [lia|]. cbn [month_loop].
    assert ((year <? cy) || (year =? cy) && (month <=? cm) = true) as ->.
    { destruct (Z.ltb_spec year cy), (Z.eqb_spec year cy), (Z.leb_spec month cm);
        try done; lia. }
    rewrite Nat2Z.inj_succ, seqZ_cons by lia. cbn [fmap list_fmap]. f_equal.
    + unfold nth_month. f_equal.
      * apply (Z.div_unique _ 12 _ (month - 1)); lia.
      * rewrite <- (Z.mod_unique (12 * year + month - 1) 12 year (month - 1)) by lia.
        do 2 f_equal; lia.
    + rewrite Z.pred_succ. destruct (Z.ltb_spec 12 (month + 1)).
      * rewrite (IH fuel) by lia. do 2 f_equal. lia.
      * rewrite (IH fuel) by lia. do 2 f_equal. lia.
Qed.

(** X18: [generate_month_list] gives the months from the start
    month to the current month, both included, in order, each once, as
    [YYYY-MM]; the list is empty when the start lies after the current
    month. *)
Theorem month_list_is_start_to_now (start_year start_month current_year current_month : Z) :
  1 ≤ start_month ≤ 12 → 1 ≤ current_month ≤ 12 →
  generate_month_list start_year start_month current_year current_month
  = nth_month
      <$> seqZ (12 * start_year + start_month - 1)
            (12 * current_year + current_month - (12 * start_year + start_month - 1)).
Proof.
  intros Hs Hc. unfold generate_month_list.
  set (n := 12 * current_year + current_month - (12 * start_year + start_month - 1)).
  destruct (Z.le_gt_cases n 0) as [Hn|Hn].
  - rewrite (month_loop_closed _ _ 0%nat) by lia.
    cbn. destruct n; try done; lia.
  - rewrite (month_loop_closed _ _ (Z.to_nat n)) by lia.
    by rewrite Z2Nat.id by lia.
Qed.

(** ** Checkpoint Store *)

Lemma from_dict_asdict s : from_dict (asdict s) = Some s.
Proof.
  unfold from_dict. rewrite decide_True; [by destruct s as [? ? ? ? ? ? [?|] ? ?]|].
  unfold asdict, dataclass_fields.
  cbn [list_to_map foldr uncurry fst snd Datatypes.uncurry].
  rewrite !dom_insert_L, dom_empty_L. set_solver.
Qed.

Lemma restore_stats_saved (l : list (string * PopularityStats)) : ∀ stats,
  NoDup l.*1 →
  restore_stats (prod_map id asdict <$> l) stats = list_to_map l ∪ stats.
Proof.
  induction l as [|[fen s] l IH]; intros stats Hnd.
  - cbn. by rewrite (left_id_L ∅ (∪)).
  - cbn [fmap list_fmap prod_map fst snd id restore_stats].
    rewrite from_dict_asdict. cbn in Hnd. apply NoDup_cons in Hnd as [Hfen Hnd].
    rewrite IH by done. cbn [list_to_map foldr].
    rewrite <- insert_union_r by (by apply not_elem_of_list_to_map_1).
    by rewrite insert_union_l.
Qed.

(** X19: loading a checkpoint written from a completed set and
    statistics restores that completed set (replacing the one in memory)
    and every record as it was saved; a position the checkpoint does not
    name keeps its record in memory. *)
Theorem checkpoint_round_trip (processed processed0 : gset string)
    (stats stats0 : gmap string PopularityStats) (now : string) :
  load_checkpoint (Some (checkpoint_of processed stats now)) processed0 stats0
  = (processed, stats ∪ stats0).
Proof.
  unfold load_checkpoint, checkpoint_of. cbn. f_equal.
  - apply list_to_set_elements_L.
  - rewrite map_to_list_fmap, restore_stats_saved.
    + by rewrite list_to_map_to_list.
    + apply NoDup_fst_map_to_list.
Qed.

(** ** Stream Processor *)

Lemma string_app_assoc (s1 s2 s3 : string) : (s1 +:+ s2) +:+ s3 = s1 +:+ (s2 +:+ s3).
Proof.
  induction s1 as [|c s1 IH]; [done|].
  change (String c ((s1 +:+ s2) +:+ s3) = String c (s1 +:+ (s2 +:+ s3))).
  by rewrite IH.
Qed.

Lemma string_app_nil_r (s : string) : s +:+ EmptyString = s.
Proof.
  induction s as [|c s IH]; [done|].
  change (String c (s +:+ EmptyString) = String c s). by rewrite IH.
Qed.

Lemma strip_prefix_app sep : ∀ s t r,
  strip_prefix sep s = Some r → strip_prefix sep (s +:+ t) = Some (r +:+ t).
Proof.
  induction sep as [|a sep IH]; intros s t r; simpl.
  - by intros [= <-].
  - destruct s as [|b s]; simpl; [done|]. destruct (Ascii.eqb a b); [apply IH|done].
Qed.

Lemma strip_prefix_length sep : ∀ s r,
  strip_prefix sep s = Some r →
  String.length s = (String.length sep + String.length r)%nat.
Proof.
  induction sep as [|a sep IH]; intros s r; simpl.
  - by intros [= <-].
  - destruct s as [|b s]; simpl; [done|].
    destruct (Ascii.eqb a b); [|done]. intros H. by rewrite (IH _ _ H).
Qed.

Lemma strip_prefix_none_app sep : ∀ s t,
  strip_prefix sep s = None → (String.length sep ≤ String.length s)%nat →
  strip_prefix sep (s +:+ t) = None.
Proof.
  induction sep as [|a sep IH]; intros s t; simpl; [done|].
  destruct s as [|b s]; simpl; [lia|].
  destruct (Ascii.eqb a b); [|done]. intros H Hl. apply IH; [done|lia].
Qed.

Lemma split_once_length sep : ∀ s before rest,
  split_once sep s = Some (before, rest) →
  String.length s = (String.length before + String.length sep + String.length rest)%nat.
Proof.
  induction s as [|c s IH]; intros before rest; simpl.
  - destruct (strip_prefix sep EmptyString) as [r|] eqn:Hp; [|done].
    intros [= <- <-]. apply strip_prefix_length in Hp. simpl in *. lia.
  - destruct (strip_prefix sep (String c s)) as [r|] eqn:Hp.
    + intros [= <- <-]. apply strip_prefix_length in Hp. simpl in *. lia.
    + destruct (split_once sep s) as [[b r]|] eqn:Hs; [|done].
      intros [= <- <-]. rewrite (IH _ _ eq_refl). simpl. lia.
Qed.

Lemma split_once_app sep : ∀ s t before rest,
  split_once sep s = Some (before, rest) →
  split_once sep (s +:+ t) = Some (before, rest +:+ t).
Proof.
  induction s as [|c s IH]; intros t before rest.
  - simpl. destruct (strip_prefix sep EmptyString) as [r|] eqn:Hp; [|done].
    intros [= <- <-].
    destruct sep; [|done]. simpl in Hp. injection Hp as <-.
    simpl. destruct t; done.
  - cbn [split_once]. destruct (strip_prefix sep (String c s)) as [r|] eqn:Hp.
    + intros [= <- <-]. change (String c s +:+ t) with (String c (s +:+ t)).
      cbn [split_once]. change (String c (s +:+ t)) with (String c s +:+ t).
      by rewrite (strip_prefix_app _ _ _ _ Hp).
    + destruct (split_once sep s) as [[b r]|] eqn:Hs; [|done].
      intros [= <- <-]. change (String c s +:+ t) with (String c (s +:+ t)).
      cbn [split_once]. change (String c (s +:+ t)) with (String c s +:+ t).
      rewrite strip_prefix_none_app; [by rewrite (IH t b r eq_refl)|done|].
      apply split_once_length in Hs. simpl. lia.
Qed.

Lemma split_once_empty : split_once record_separator EmptyString = None.
Proof. reflexivity. Qed.

Lemma split_once_shorter s before rest :
  split_once record_separator s = Some (before, rest) →
  (String.length rest < String.length s)%nat.
Proof. intros H. apply split_once_length in H. cbn in H. lia. Qed.

Lemma drain_fuel : ∀ fuel fuel' s,
  (String.length s ≤ fuel)%nat → (String.length s ≤ fuel')%nat →
  drain fuel s = drain fuel' s.
Proof.
  induction fuel as [|fuel IH]; intros fuel' s Hf Hf'.
  - destruct s; [|cbn in Hf; lia]. destruct fuel'; [done|].
    cbn [drain]. by rewrite split_once_empty.
  - destruct fuel' as [|fuel'].
    + destruct s; [|cbn in Hf'; lia]. cbn [drain]. by rewrite split_once_empty.
    + cbn [drain]. destruct (split_once record_separator s) as [[a r]|] eqn:Hs; [|done].
      apply split_once_shorter in Hs. by rewrite (IH fuel' r) by lia.
Qed.

Lemma drain_none s fuel :
  split_once record_separator s = None → drain fuel s = ([], s).
Proof. intros H. destruct fuel; [done|]. cbn [drain]. by rewrite H. Qed.

Lemma drain_some s before rest :
  split_once record_separator s = Some (before, rest) →
  drain (String.length s) s
  = (before :: (drain (String.length rest) rest).1, (drain (String.length rest) rest).2).
Proof.
  intros H. pose proof (split_once_shorter _ _ _ H) as Hlt.
  destruct (String.length s) as [|n] eqn:Hn; [lia|].
  cbn [drain]. rewrite H. rewrite (drain_fuel n (String.length rest) rest) by lia.
  by destruct (drain (String.length rest) rest).
Qed.

Lemma drain_app : ∀ (n : nat) (s t : string),
  (String.length s ≤ n)%nat →
  drain (String.length (s +:+ t)) (s +:+ t)
  = let '(games, rest) := drain (String.length s) s in
    let '(games', rest') := drain (String.length (rest +:+ t)) (rest +:+ t) in
    (games ++ games', rest').
Proof.
  induction n as [|n IH]; intros s t Hn.
  - destruct s; [|cbn in Hn; lia]. cbn [String.length drain].
    change (EmptyString +:+ t) with t. by destruct (drain (String.length t) t).
  - destruct (split_once record_separator s) as [[a r]|] eqn:Hs.
    + pose proof (split_once_shorter _ _ _ Hs) as Hlt.
      rewrite (drain_some _ _ _ (split_once_app _ _ t _ _ Hs)), (drain_some _ _ _ Hs).
      rewrite (IH r t) by lia.
      destruct (drain (String.length r) r) as [g1 r1]. cbn [fst snd].
      by destruct (drain (String.length (r1 +:+ t)) (r1 +:+ t)).
    + rewrite (drain_none s _ Hs).
      by destruct (drain (String.length (s +:+ t)) (s +:+ t)).
Qed.

Lemma stream_state cs : ∀ (state : list string * string) (text : string),
  state = drain (String.length text) text →
  foldl feed state cs
  = drain (String.length (text +:+ decoded_text cs)) (text +:+ decoded_text cs).
Proof.
  induction cs as [|[c|] cs IH]; intros state text Hstate.
  - cbn. by rewrite string_app_nil_r.
  - cbn [foldl decoded_text foldr]. rewrite <- string_app_assoc.
    apply IH. unfold feed.
    rewrite (drain_app (String.length text) text c) by done.
    rewrite <- Hstate. destruct state as [gs buf]. cbn [fst snd].
    by destruct (drain (String.length (buf +:+ c)) (buf +:+ c)).
  - cbn [foldl decoded_text foldr feed]. by apply IH.
Qed.

Lemma stream_is_drain cs :
  foldl feed ([], EmptyString) cs
  = drain (String.length (decoded_text cs)) (decoded_text cs).
Proof. apply (stream_state cs ([], EmptyString) EmptyString). reflexivity. Qed.

Lemma strip_prefix_decompose sep : ∀ s r,
  strip_prefix sep s = Some r → s = sep +:+ r.
Proof.
  induction sep as [|a sep IH]; intros s r; cbn [strip_prefix].
  - by intros [= <-].
  - destruct s as [|b s]; [done|].
    destruct (Ascii.eqb_spec a b) as [<-|]; [|done].
    intros H. change (String a s = String a (sep +:+ r)). by rewrite (IH _ _ H).
Qed.

Lemma split_once_decompose sep : ∀ s before rest,
  split_once sep s = Some (before, rest) → s = before +:+ (sep +:+ rest).
Proof.
  induction s as [|c s IH]; intros before rest; cbn [split_once].
  - destruct (strip_prefix sep EmptyString) as [r|] eqn:Hp; [|done].
    intros [= <- <-]. exact (strip_prefix_decompose _ _ _ Hp).
  - destruct (strip_prefix sep (String c s)) as [r|] eqn:Hp.
    + intros [= <- <-]. exact (strip_prefix_decompose _ _ _ Hp).
    + destruct (split_once sep s) as [[b r]|] eqn:Hs; [|done].
      intros [= <- <-]. change (String c s = String c (b +:+ (sep +:+ r))).
      by rewrite (IH b r eq_refl).
Qed.

Lemma split_once_before : ∀ s before rest,
  split_once record_separator s = Some (before, rest) →
  split_once record_separator before = None.
Proof.
  induction s as [|c s IH]; intros before rest; cbn [split_once].
  - destruct (strip_prefix record_separator EmptyString) as [r|] eqn:Hp; [|done].
    by intros [= <- <-].
  - destruct (strip_prefix record_separator (String c s)) as [r|] eqn:Hp.
    + by intros [= <- <-].
    + destruct (split_once record_separator s) as [[b r]|] eqn:Hs; [|done].
      intros [= <- <-]. cbn [split_once].
      destruct (strip_prefix record_separator (String c b)) as [x|] eqn:Hx.
      * apply (strip_prefix_app _ _ (record_separator +:+ r)) in Hx.
        apply split_once_decompose in Hs. subst s.
        change (String c b +:+ (record_separator +:+ r))
          with (String c (b +:+ (record_separator +:+ r))) in Hx. congruence.
      * by rewrite (IH b r eq_refl).
Qed.

Lemma drain_separator_free : ∀ (n : nat) (s : string),
  (String.length s ≤ n)%nat →
  Forall (fun g => split_once record_separator g = None)
         (drain (String.length s) s).1
  ∧ split_once record_separator (drain (String.length s) s).2 = None.
Proof.
  induction n as [|n IH]; intros s Hn.
  - destruct s; [|cbn in Hn; lia]. by split.
  - destruct (split_once record_separator s) as [[a r]|] eqn:Hs.
    + pose proof (split_once_shorter _ _ _ Hs) as Hlt.
      rewrite (drain_some _ _ _ Hs). cbn [fst snd].
      destruct (IH r ltac:(lia)) as [H1 H2]. split; [|done].
      constructor; [|done]. by apply (split_once_before s a r).
    + rewrite (drain_none s _ Hs). by split.
Qed.

Section StreamFacts.
Variable blank : string → bool.
Variable read_game : string → result (option Game).
Variable py_int : string → option Z.
Variable target_fens : gset string.

(** X20: the statistics [process_local_file] leaves and what it
    returns depend on the text of the chunks that decode, joined, not on
    where the reader cuts it into chunks. *)
Theorem chunk_boundaries_do_not_matter (cs : list (option string)) (fails : bool)
    (stats : gmap string PopularityStats) :
  process_local_file blank read_game py_int target_fens (mkArchive cs fails) stats
  = process_local_file blank read_game py_int target_fens
      (mkArchive [Some (decoded_text cs)] fails) stats.
Proof.
  unfold process_local_file, stream_games. cbn [chunks read_fails].
  rewrite !stream_is_drain.
  cbn [decoded_text foldr]. by rewrite string_app_nil_r.
Qed.

(** X21: a text handed to [process_game] never holds the record
    separator and is never blank. *)
Theorem games_handed_are_whole_records (a : archive) (game_text : string) :
  game_text ∈ stream_games blank a →
  split_once record_separator game_text = None ∧ blank game_text = false.
Proof.
  unfold stream_games. rewrite stream_is_drain.
  destruct (drain_separator_free (String.length (decoded_text (chunks a)))
              (decoded_text (chunks a)) ltac:(lia)) as [Hgames Hrest].
  destruct (drain _ _) as [games rest]. cbn [fst snd] in *.
  rewrite list_elem_of_filter. intros [Hblank Hin]. split; [|done].
  destruct (read_fails a).
  - by apply (proj1 (Forall_forall _ _) Hgames).
  - apply elem_of_app in Hin as [Hin|Hin%list_elem_of_singleton].
    + by apply (proj1 (Forall_forall _ _) Hgames).
    + by subst.
Qed.
End StreamFacts.

(** ** File helpers *)

Lemma file_retry_loop_spec windows outcome max_retries remaining : ∀ attempt,
  (attempt + remaining = max_retries)%nat →
  ((file_retry_loop windows outcome max_retries attempt remaining).2 ≤ remaining)%nat
  ∧ (windows = true →
     ∃ b, (file_retry_loop windows outcome max_retries attempt remaining).1 = Ok b)
  ∧ ((file_retry_loop windows outcome max_retries attempt remaining).1 = Ok true ↔
     ∃ k, (attempt ≤ k < max_retries)%nat ∧ outcome k = TryDone
          ∧ (windows = false →
             ∀ j, (attempt ≤ j < k)%nat → outcome j ≠ TryPermissionError)).
Proof.
  induction remaining as [|remaining IH]; intros attempt Hsum; cbn [file_retry_loop].
  - cbn [fst snd]. split; [done|]. split; [by (intros _; eexists)|].
    split; [done|]. intros (k & Hk & _). lia.
  - specialize (IH (S attempt) ltac:(lia)).
    destruct (outcome attempt) eqn:Hout.
    + cbn [fst snd]. split; [lia|]. split; [by (intros _; eexists)|].
      split; [|done]. intros _. exists attempt.
      split; [lia|]. split; [done|]. intros _ j Hj. lia.
    + destruct windows.
      * destruct (file_retry_loop true outcome max_retries (S attempt) remaining)
          as [r tries]. cbn [fst snd] in *. destruct IH as (Ht & Hw & Hiff).
        split; [lia|]. split; [done|]. rewrite Hiff. split.
        -- intros (k & Hk & Hd & _). exists k. split; [lia|]. by split.
        -- intros (k & Hk & Hd & _). exists k. split; [|by split].
           destruct (decide (k = attempt)) as [->|]; [congruence|lia].
      * cbn [fst snd]. split; [lia|]. split; [done|]. split; [done|].
        intros (k & Hk & Hd & Hno).
        destruct (decide (k = attempt)) as [->|]; [congruence|].
        exfalso. apply (Hno eq_refl attempt); [lia|done].
    + destruct (Nat.eqb_spec attempt (max_retries - 1)).
      * cbn [fst snd]. split; [lia|]. split; [by (intros _; eexists)|].
        split; [done|].
        intros (k & Hk & Hd & _). assert (k = attempt) as -> by lia. congruence.
      * destruct (file_retry_loop windows outcome max_retries (S attempt) remaining)
          as [r tries]. cbn [fst snd] in *. destruct IH as (Ht & Hw & Hiff).
        split; [lia|]. split; [done|]. rewrite Hiff. split.
        -- intros (k & Hk & Hd & Hno). exists k. split; [lia|]. split; [done|].
           intros Hwin j Hj. destruct (decide (j = attempt)) as [->|]; [congruence|].
           apply Hno; [done|lia].
        -- intros (k & Hk & Hd & Hno). exists k.
           assert (k ≠ attempt) by congruence.
           split; [lia|]. split; [done|]. intros Hwin j Hj. apply Hno; [done|lia].
Qed.

(** X22: [safe_file_remove] and [safe_file_move] try at most
    [max_retries] times; on Windows they never raise; they return [True]
    exactly when some try succeeds and, off Windows, no try before it
    was refused with a [PermissionError]. *)
Theorem file_helpers_retry_contract :
  retry_contract safe_file_remove ∧ retry_contract safe_file_move.
Proof.
  assert (retry_contract safe_file_remove) as H; [|by split].
  intros windows outcome max_retries. unfold safe_file_remove.
  destruct (file_retry_loop_spec windows outcome max_retries max_retries 0%nat eq_refl)
    as (H1 & H2 & H3).
  split; [done|]. split; [done|]. rewrite H3. unfold succeeds_at. split.
  - intros (k & Hk & Hd & Hno). exists k. split; [lia|]. split; [done|].
    intros Hw j Hj. apply Hno; [done|lia].
  - intros (k & Hk & Hd & Hno). exists k. split; [lia|]. split; [done|].
    intros Hw j Hj. apply Hno; [done|lia].
Qed.

(** ** Target Universe *)

Section TargetUniverseFacts.
Variable strip : string → string.

Lemma add_target_fen_zero (tf : gset string) key :
  add_target_fen strip (tf, gset_to_gmap zero_stats tf) key
  = (let tf' := if decide (strip key = EmptyString) then tf else {[strip key]} ∪ tf in
     (tf', gset_to_gmap zero_stats tf')).
Proof.
  unfold add_target_fen. cbn [fst snd]. case_decide; [done|]. f_equal.
  rewrite lookup_gset_to_gmap. destruct (decide (strip key ∈ tf)) as [Hin|Hnin].
  - rewrite option_guard_True by done. cbn.
    by replace ({[strip key]} ∪ tf) with tf by set_solver.
  - rewrite option_guard_False by done. cbn. by rewrite gset_to_gmap_union_singleton.
Qed.

Lemma add_target_fens_zero keys : ∀ tf : gset string,
  foldl (add_target_fen strip) (tf, gset_to_gmap zero_stats tf) keys
  = (let tf' := list_to_set (filter (fun fen => fen ≠ EmptyString) (strip <$> keys)) ∪ tf in
     (tf', gset_to_gmap zero_stats tf')).
Proof.
  induction keys as [|key keys IH]; intros tf; cbn [foldl].
  - cbn. by rewrite (left_id_L ∅ (∪)).
  - rewrite add_target_fen_zero. cbn zeta. rewrite IH. cbn zeta.
    rewrite fmap_cons, filter_cons.
    destruct (decide (strip key = EmptyString)) as [He|Hne].
    + rewrite decide_False by (intros H; by apply H). done.
    + rewrite decide_True by done. cbn [list_to_set foldr].
      by replace (list_to_set (filter (λ fen : string, fen ≠ "") (strip <$> keys))
                    ∪ ({[strip key]} ∪ tf))
        with ({[strip key]} ∪ list_to_set (filter (λ fen : string, fen ≠ "") (strip <$> keys))
                ∪ tf) by set_solver.
Qed.

Lemma load_target_fens_zero eco_files : ∀ tf : gset string,
  load_target_fens strip eco_files tf (gset_to_gmap zero_stats tf)
  = (named_fens strip eco_files ∪ tf, gset_to_gmap zero_stats (named_fens strip eco_files ∪ tf)).
Proof.
  unfold load_target_fens, named_fens.
  induction eco_files as [|[keys|] eco_files IH]; intros tf; cbn [foldl omap list_omap].
  - cbn. by rewrite (left_id_L ∅ (∪)).
  - rewrite add_target_fens_zero. cbn zeta. rewrite IH.
    cbn [id concat mbind option_bind]. rewrite fmap_app, filter_app, list_to_set_app_L.
    by replace (list_to_set (filter (λ fen : string, fen ≠ "") (strip <$> concat (omap id eco_files)))
         ∪ (list_to_set (filter (λ fen : string, fen ≠ "") (strip <$> keys)) ∪ tf))
      with (list_to_set (filter (λ fen : string, fen ≠ "") (strip <$> keys))
            ∪ list_to_set (filter (λ fen : string, fen ≠ "") (strip <$> concat (omap id eco_files)))
            ∪ tf) by set_solver.
  - apply IH.
Qed.

(** X23: from an empty analyzer, [load_target_fens] makes the target
    set the set of the stripped, non-empty keys of the files it could
    read, and gives every one of them the zero record and nothing
    else. *)
Theorem target_universe_initialised (eco_files : list (option (list string))) :
  load_target_fens strip eco_files ∅ ∅
  = (named_fens strip eco_files, gset_to_gmap zero_stats (named_fens strip eco_files)).
Proof.
  rewrite <- (gset_to_gmap_empty zero_stats), load_target_fens_zero.
  by rewrite (right_id_L ∅ (∪)).
Qed.
End TargetUniverseFacts.

(** ** Enrichment report *)

Lemma enrichment_totals_from eco_files : ∀ totals : Z * Z,
  0 ≤ totals.1 ≤ totals.2 →
  let totals' :=
    foldl (fun totals eco_file =>
             match file_counts eco_file with
             | Some (enriched, positions) => (totals.1 + enriched, totals.2 + positions)
             | None => totals
             end) totals eco_files in
  0 ≤ totals'.1 ≤ totals'.2.
Proof.
  induction eco_files as [|f eco_files IH]; intros totals H; [done|].
  cbn [foldl]. apply IH.
  destruct f as [[]|]; cbn [file_counts]; try done. cbn [fst snd].
  pose proof (length_filter (fun kv : string * json => is_enriched kv.2 = true)
                (map_to_list fields)) as Hle.
  rewrite length_map_to_list in Hle. lia.
Qed.

(** X24: the enrichment report never counts more enriched positions
    than positions, and neither total is negative. *)
Theorem enriched_at_most_positions (eco_files : list (option json)) :
  0 ≤ (check_enrichment_status eco_files).1 ≤ (check_enrichment_status eco_files).2.
Proof. apply (enrichment_totals_from eco_files (0, 0)). done. Qed.

(** ** The whole run *)

Section WholeRunFacts.
Variable strip : string → string.
Variable read_game : string → result (option Game).
Variable py_int : string → option Z.

Lemma run_analysis_document (target_fens : gset string) (w : World)
    (schedule : list action) (now : string) (months : list string)
    (processed : gset string) (st : gmap string PopularityStats)
    (final_data : gmap string (gmap string pyval)) :
  (run_analysis read_game py_int target_fens w schedule now months processed st).2
  = Some final_data →
  dom final_data = dom st
  ∧ ∀ fen d, final_data !! fen = Some d → dom d = result_fields.
Proof.
  unfold run_analysis.
  set (a0 := start_workers months processed st).
  set (a := match months_left a0 with [] => a0 | _ => _ end).
  assert (dom (stats a) = dom st) as Hdom.
  { subst a. destruct (months_left a0); [done|]. subst a0.
    destruct (run_workers_invariant read_game py_int target_fens w
                (remaining_months months processed) processed st schedule _
                (start_workers_invariant read_game py_int target_fens w months processed st))
      as (_ & _ & _ & Hs & _).
    rewrite Hs. apply process_units_dom. }
  destruct (calculate_popularity_scores (stats a)) as [scored|e] eqn:Hcalc; [|done].
  assert (dom scored = dom (stats a)) as Hscored.
  { destruct (calculate_popularity_scores_Ok _ _ Hcalc) as [[_ ->]|(_ & ths & _ & ->)];
      [done|apply dom_fmap_L]. }
  cbn. intros [= <-]. split.
  - by rewrite !dom_fmap_L, Hscored.
  - intros fen d. rewrite !lookup_fmap.
    destruct (scored !! fen) as [s|]; [|done]. intros [= <-].
    apply final_stats_dict_dom.
Qed.

(** X30: when a whole run from a fresh analyzer writes its result
    document, the document has a record for exactly the positions the
    ECO files name and the positions of the checkpoint it loaded (one
    that [save_checkpoint] wrote, or none), each record with the twelve
    fields of the result. *)
Theorem result_document_covers_targets (w : World) (schedule : list action)
    (now : string) (eco_files : list (option (list string)))
    (document : option checkpoint_data)
    (start_year start_month current_year current_month : Z)
    (final_data : gmap string (gmap string pyval)) :
  written document →
  (run_analysis_from_start strip read_game py_int w schedule now eco_files document
     start_year start_month current_year current_month).2 = Some final_data →
  dom final_data = named_fens strip eco_files ∪ checkpoint_keys document
  ∧ ∀ fen d, final_data !! fen = Some d → dom d = result_fields.
Proof.
  intros Hwritten. unfold run_analysis_from_start.
  rewrite <- (gset_to_gmap_empty zero_stats), load_target_fens_zero.
  rewrite (right_id_L ∅ (∪)).
  destruct (load_checkpoint document ∅ _) as [processed stats1] eqn:Hload.
  intros Hrun. apply run_analysis_document in Hrun as [Hdom Hfields].
  split; [|done]. rewrite Hdom.
  destruct Hwritten as [->|(saved & stats & now' & ->)].
  - cbn in Hload. injection Hload as <- <-.
    cbn. by rewrite dom_gset_to_gmap, (right_id_L ∅ (∪)).
  - unfold load_checkpoint, checkpoint_of in Hload.
    cbn [cp_stats cp_processed_months] in Hload. injection Hload as <- <-.
    cbn [checkpoint_keys checkpoint_of cp_stats].
    assert (list_to_set (map_to_list (asdict <$> stats)).*1 = dom stats) as ->.
    { apply leibniz_equiv. by rewrite <- dom_alt, dom_fmap. }
    rewrite map_to_list_fmap, restore_stats_saved by apply NoDup_fst_map_to_list.
    rewrite list_to_map_to_list, dom_union_L, dom_gset_to_gmap. set_solver.
Qed.
End WholeRunFacts.


(** ** The theorems on the example inputs *)


Lemma games_analyzed_never_decreases_witness :
  ∃ r', process_games sample_read_game decimal_int sample_target_fens
          ["game 1"; "unrated"; "game 2"] sample_stats !! "A" = Some r'
        ∧ games_analyzed zero_stats ≤ games_analyzed r'.
Proof.
  apply (games_analyzed_never_decreases sample_read_game decimal_int sample_target_fens).
  - unfold nonneg_counts. apply (bool_decide_unpack _). vm_compute. exact I.
  - reflexivity.
Defined.

Lemma scoring_pass_idempotent_witness :
  calculate_popularity_scores sample_scored = Ok sample_scored
  ∧ dom sample_scored = dom sample_counted
  ∧ ∀ fen s', sample_scored !! fen = Some s' →
      ∃ s, sample_counted !! fen = Some s ∧ same_but_scores s s'.
Proof.
  apply (scoring_pass_idempotent sample_counted sample_scored).
  vm_compute. reflexivity.
Defined.

Lemma scoring_pass_without_games_witness :
  calculate_popularity_scores sample_stats = Ok sample_stats.
Proof.
  apply (scoring_pass_without_games sample_stats).
  apply (bool_decide_unpack _). vm_compute. exact I.
Defined.

Lemma scores_in_range_witness :
  let s' := mkStats 10 2 1 0 1 2 (Some (2975 # 2)) (4 # 10) "" in
  0 ≤ popularity_score s' ≤ 10
  ∧ (popularity_score s' = 0 ↔ games_analyzed s' = 0)
  ∧ (confidence_score s' = 0%Q ↔ games_analyzed s' = 0)
  ∧ confidence_score s' ∈ confidence_steps.
Proof.
  apply (scores_in_range sample_counted sample_scored "A").
  - vm_compute. reflexivity.
  - vm_compute. discriminate.
  - vm_compute. reflexivity.
Defined.



Lemma month_list_is_start_to_now_witness :
  generate_month_list 2021 11 2022 2
  = nth_month <$> seqZ (12 * 2021 + 11 - 1) (12 * 2022 + 2 - (12 * 2021 + 11 - 1)).
Proof. apply (month_list_is_start_to_now 2021 11 2022 2); lia. Defined.

Lemma games_handed_are_whole_records_witness :
  split_once record_separator "game 2" = None ∧ sample_blank "game 2" = false.
Proof.
  apply (games_handed_are_whole_records sample_blank sample_archive "game 2").
  assert (stream_games sample_blank sample_archive = ["game 1"; "game 2"; "game 3"])
    as -> by (vm_compute; reflexivity).
  right. left.
Defined.

Lemma score_record_spec_witness :
  popularity_score (score_record sample_thresholds (mkStats 0 2 1 0 1 2 None 0 ""))
  = spec_score 2 sample_thresholds.
Proof.
  apply (score_record_spec sample_thresholds (mkStats 0 2 1 0 1 2 None 0 "")).
  unfold sample_thresholds.
  repeat first [lia | constructor].
Defined.


Lemma failed_download_stops_worker_witness :
  ∃ a', download_worker_step sample_failing_world
          (start_workers ["2021-07"; "2021-08"] ∅ sample_stats) = Some a'
        ∧ shutdown_requested a' = true
        ∧ months_left a' = []
        ∧ download_complete a' = true
        ∧ download_queue a'
          = download_queue (start_workers ["2021-07"; "2021-08"] ∅ sample_stats).
Proof.
  apply (failed_download_stops_worker sample_failing_world
           (start_workers ["2021-07"; "2021-08"] ∅ sample_stats) "2021-07" ["2021-08"]).
  - reflexivity.
  - vm_compute. reflexivity.
  - reflexivity.
  - cbn. set_solver.
  - discriminate.
  - reflexivity.
Defined.

Lemma no_download_after_loop_left_witness :
  download_events
    (trace (run_workers sample_read_game decimal_int sample_target_fens sample_world
              [Download; Process; Process] sample_stopped))
  = download_events (trace sample_stopped).
Proof.
  apply (no_download_after_loop_left sample_read_game decimal_int sample_target_fens
           sample_world [Download; Process; Process] sample_stopped).
  reflexivity.
Defined.

Lemma result_document_covers_targets_witness :
  match (run_analysis_from_start id sample_read_game decimal_int sample_world
           [Download; Process; Process] sample_now sample_eco_files None
           2021 8 2021 8).2 with
  | Some final_data =>
      dom final_data = named_fens id sample_eco_files ∪ checkpoint_keys None
      ∧ ∀ fen d, final_data !! fen = Some d → dom d = result_fields
  | None => False
  end.
Proof.
  destruct (run_analysis_from_start id sample_read_game decimal_int sample_world
              [Download; Process; Process] sample_now sample_eco_files None
              2021 8 2021 8).2 as [final_data|] eqn:Hrun.
  - apply (result_document_covers_targets id sample_read_game decimal_int sample_world
             [Download; Process; Process] sample_now sample_eco_files None 2021 8 2021 8
             final_data).
    + left. reflexivity.
    + exact Hrun.
  - discriminate Hrun.
Defined.
